(** * Lecture transcriber: a shallow embedding of [main.py]

    The program converts video files to text: for each video it extracts the
    audio track with moviepy, runs Whisper on it, writes the text next to the
    other transcripts and removes the temporary audio file.

    The embedding follows the Python source function by function.  The file
    system is a finite map from path strings to nodes, standard output and the
    calls to the outside world (moviepy, Whisper, the operating system) are
    recorded in a chronological trace, and Python exceptions are threaded
    through a small state-and-exception monad.  What the outside world answers
    to each call is not determined by the program: it is given by an
    environment of oracles, and every theorem quantifies over it.

    What the model takes for granted about the collaborators:
    - the decoder writes nowhere but at the audio path it is given; loading
      the model and running the recognizer change no file of the model;
    - a call that raises an exception raises an [Exception] with a message or
      is interrupted by the user ([KeyboardInterrupt]); the interrupt arrives
      during the blocking calls (model load, directory creation, decoding,
      recognition, file output, deletion), not between them;
    - [print] and [Path.exists] do not fail;
    - a path is the string pathlib prints for it, and the file system maps
      such strings to what is there; two strings that reach the same file
      through [..], a link or the working directory are different keys;
    - the file system of the model does not contain the download cache of
      the recognizer library;
    - the progress bar of tqdm, written to the error stream, is left out;
    - argparse, which runs before the [try:] of [main], is left out: [main]
      starts from the parsed arguments. *)

From Stdlib Require Import ZArith Ascii String List Permutation.
From stdpp Require Import base gmap strings list fin_maps pretty.

Local Open Scope Z_scope.
Local Open Scope nat_scope.

(** ** Strings and paths *)

Module Str.

(** [str.upper()] and [str.lower()] on the ASCII letters; the extension
    patterns of the program contain no other cased character. *)
Definition upper_ascii (c : ascii) : ascii :=
  let n := nat_of_ascii c in
  if (97 <=? n) && (n <=? 122) then ascii_of_nat (n - 32) else c.

Definition lower_ascii (c : ascii) : ascii :=
  let n := nat_of_ascii c in
  if (65 <=? n) && (n <=? 90) then ascii_of_nat (n + 32) else c.

Fixpoint upper (s : string) : string :=
  match s with
  | EmptyString => EmptyString
  | String c r => String (upper_ascii c) (upper r)
  end.

Fixpoint lower (s : string) : string :=
  match s with
  | EmptyString => EmptyString
  | String c r => String (lower_ascii c) (lower r)
  end.

(** [s.endswith(suf)] *)
Fixpoint endswith (s suf : string) : bool :=
  if String.eqb s suf then true
  else match s with
       | EmptyString => false
       | String _ r => endswith r suf
       end.

(** [s.startswith(pre)], returning the rest of the string. *)
Fixpoint strip_prefix (pre s : string) : option string :=
  match pre, s with
  | EmptyString, _ => Some s
  | String a pre', String b s' =>
      if Ascii.eqb a b then strip_prefix pre' s' else None
  | String _ _, EmptyString => None
  end.

Fixpoint contains_char (c : ascii) (s : string) : bool :=
  match s with
  | EmptyString => false
  | String d r => Ascii.eqb c d || contains_char c r
  end.

(** [s.rfind(".")] *)
Fixpoint rfind_dot (s : string) : option nat :=
  match s with
  | EmptyString => None
  | String c r =>
      match rfind_dot r with
      | Some i => Some (S i)
      | None => if Ascii.eqb c "." then Some 0 else None
      end
  end.

Definition nl : string := String "010" EmptyString.

End Str.

(** Paths are the strings pathlib prints for them; components are separated
    by a slash. *)
Module Path.

(** [dir / child] *)
Definition join (dir child : string) : string := dir +:+ "/" +:+ child.

Fixpoint after_last_slash (cur p : string) : string :=
  match p with
  | EmptyString => cur
  | String c r =>
      if Ascii.eqb c "/" then after_last_slash r r else after_last_slash cur r
  end.

(** [p.name]: the final component; a path without components, printed as
    [.], has the empty name. *)
Definition name (p : string) : string :=
  if String.eqb p "." then "" else after_last_slash p p.

(** [p.stem]: the final component without its last suffix.  As in pathlib,
    a leading dot and a trailing dot do not start a suffix. *)
Definition stem (p : string) : string :=
  let n := name p in
  match Str.rfind_dot n with
  | Some i =>
      if (0 <? i) && (i <? String.length n - 1) then substring 0 i n else n
  | None => n
  end.

(** [s.split("/")] *)
Fixpoint components (s : string) : list string :=
  match s with
  | EmptyString => [EmptyString]
  | String c r =>
      if Ascii.eqb c "/" then EmptyString :: components r
      else match components r with
           | x :: xs => String c x :: xs
           | [] => [String c EmptyString]
           end
  end.

(** [s.lstrip("/")] *)
Fixpoint lstrip_slash (s : string) : string :=
  match s with
  | String c r => if Ascii.eqb c "/" then lstrip_slash r else s
  | EmptyString => EmptyString
  end.

Definition is_component (x : string) : bool :=
  negb (String.eqb x "") && negb (String.eqb x ".").

(** [str(Path(s))] on POSIX: the root is kept (two leading slashes stay two,
    any other number becomes one), empty and [.] components are dropped, and
    a path without root and components is printed as [.]. *)
Definition of_string (s : string) : string :=
  let rel := lstrip_slash s in
  let slashes := String.length s - String.length rel in
  let root := if slashes =? 0 then "" else if slashes =? 2 then "//" else "/" in
  let printed :=
    root +:+ String.concat "/" (List.filter is_component (components rel)) in
  if String.eqb printed "" then "." else printed.

(** The name of [p] inside [dir] when [p] is a direct child of [dir]. *)
Definition child_name (dir p : string) : option string :=
  match Str.strip_prefix (dir +:+ "/") p with
  | Some n =>
      if String.eqb n "" || Str.contains_char "/" n then None else Some n
  | None => None
  end.

End Path.

Infix "//" := Path.join (at level 40, left associativity).

(** ** The world outside the program *)

(** What exists at a path. *)
Inductive node :=
| File (content : string)
| Dir.

(** Everything the program prints and every call it makes to a collaborator,
    in the order it happens. *)
Inductive event :=
| Print (line : string)
| LoadModel (source : string)              (* whisper.load_model(source) *)
| Mkdir (p : string)                       (* p.mkdir(exist_ok=True) *)
| Decode (video audio : string)            (* VideoFileClip(video).audio.write_audiofile(audio) *)
| Transcribe (model audio : string)        (* model.transcribe(audio, language="ru") *)
| OpenWrite (p text : string)              (* open(p, 'w', encoding='utf-8'); f.write(text) *)
| Unlink (p : string)                      (* p.unlink() *)
| Sigint.                                  (* the user's interrupt arrives *)

Record World := mkWorld {
  fs : gmap string node;
  trace : list event
}.

Definition set_fs (f : gmap string node → gmap string node) (w : World) : World :=
  {| fs := f (fs w); trace := trace w |}.

Definition emit (e : event) (w : World) : World :=
  {| fs := fs w; trace := trace w ++ [e] |}.

(** How a call to a collaborator can go wrong: it raises some [Exception]
    with a message, or the user's interrupt arrives while it is blocked. *)
Inductive fault :=
| Failure (cause : string)
| Interrupt.

(** What writing a file leaves behind.  [open] may fail before the file is
    touched ([WriteFailed None]); a failing [write] leaves whatever reached
    the disk. *)
Inductive write_outcome :=
| Written
| WriteFailed (remains : option string) (f : fault).

(** The answers of the outside world.  Each oracle sees the world at the
    moment of the call, so the same call may be answered differently at
    different times. *)
Record Env := mkEnv {
  (** pathlib's glob compares names case-sensitively on POSIX and
      case-insensitively on Windows. *)
  case_sensitive : bool;
  (** the iteration order of the set [video_extensions] *)
  set_order : list string;
  load_model_result : World → string → option fault;
  mkdir_result : World → string → option fault;
  (** str(e) of the [FileExistsError] raised for a path *)
  exists_message : string → string;
  (** what the decoder leaves at the audio path, and whether it raised *)
  decode_result : World → string → string → option string * option fault;
  transcribe_result : World → string → string → string + fault;
  write_result : World → string → string → write_outcome;
  unlink_result : World → string → option fault
}.

(** ** Exceptions and the monad of the program *)

Inductive exn :=
| Error (cause : string)          (* any subclass of Exception; [cause] is str(e) *)
| KeyboardInterrupt
| SystemExit (code : Z).

Definition exn_of_fault (f : fault) : exn :=
  match f with
  | Failure cause => Error cause
  | Interrupt => KeyboardInterrupt
  end.

(** The trace records the arrival of the interrupt. *)
Definition note_fault (f : fault) (w : World) : World :=
  match f with
  | Failure _ => w
  | Interrupt => emit Sigint w
  end.

Inductive res (A : Type) :=
| Ret (a : A)
| Raise (e : exn).
Arguments Ret {A} a.
Arguments Raise {A} e.

Definition M (A : Type) : Type := World → res A * World.

Definition ret {A} (a : A) : M A := fun w => (Ret a, w).

Definition raise {A} (e : exn) : M A := fun w => (Raise e, w).

Definition bind {A B} (m : M A) (k : A → M B) : M B :=
  fun w =>
    match m w with
    | (Ret a, w1) => k a w1
    | (Raise e, w1) => (Raise e, w1)
    end.

Notation "x <~ m ;; k" := (bind m (fun x => k))
  (at level 20, m at level 99, k at level 200, only parsing).
Notation "m ;;; k" := (bind m (fun _ => k))
  (at level 100, k at level 200, right associativity, only parsing).

(** [try: body except ...: handler].  [handler e] is [None] when no [except]
    clause matches [e]. *)
Definition try_except {A} (body : M A) (handler : exn → option (M A)) : M A :=
  fun w =>
    match body w with
    | (Ret a, w1) => (Ret a, w1)
    | (Raise e, w1) =>
        match handler e with
        | Some h => h w1
        | None => (Raise e, w1)
        end
    end.

(** [try: body finally: final].  An exception raised by [final] replaces
    whatever [body] returned or raised. *)
Definition try_finally {A} (body : M A) (final : M unit) : M A :=
  fun w =>
    match body w with
    | (r, w1) =>
        match final w1 with
        | (Ret _, w2) => (r, w2)
        | (Raise e, w2) => (Raise e, w2)
        end
    end.

(** [except Exception as e:] *)
Definition except_Exception {A} (h : string → M A) (e : exn) : option (M A) :=
  match e with
  | Error cause => Some (h cause)
  | _ => None
  end.

(** [for x in xs: body x] *)
Fixpoint for_each {A} (xs : list A) (body : A → M unit) : M unit :=
  match xs with
  | [] => ret tt
  | x :: rest => body x ;;; for_each rest body
  end.

Definition print (line : string) : M unit :=
  fun w => (Ret tt, emit (Print line) w).

(** [sys.exit(code)] *)
Definition sys_exit {A} (code : Z) : M A := raise (SystemExit code).

(** [p.exists()] *)
Definition path_exists (p : string) : M bool :=
  fun w => (Ret (bool_decide (is_Some (fs w !! p))), w).

(** ** The program *)

(** [video_extensions], in the order the source writes the set. *)
Definition video_extensions : list string :=
  [".mp4"; ".avi"; ".mov"; ".mkv"; ".wmv"; ".flv"; ".webm"].

Record Args := mkArgs {
  arg_model : string;            (* args.model: tiny, base, small, medium or large *)
  arg_file : option string       (* args.file; None when the option is absent *)
}.

Record VideoToTextConverter := mkConverter {
  model : string;                (* the handle: what load_model was given *)
  data_dir : string;
  output_dir : string
}.

Section Program.

Variable env : Env.

(** *** Calls to the collaborators *)

Definition load_model (source : string) : M string :=
  fun w =>
    let w1 := emit (LoadModel source) w in
    match load_model_result env w source with
    | None => (Ret source, w1)
    | Some f => (Raise (exn_of_fault f), note_fault f w1)
    end.

(** [p.mkdir(exist_ok=True)]: a directory that is already there is left as
    it is; anything else at the path makes the call raise
    [FileExistsError]. *)
Definition mkdir_exist_ok (p : string) : M unit :=
  fun w =>
    let w1 := emit (Mkdir p) w in
    match mkdir_result env w p with
    | Some f => (Raise (exn_of_fault f), note_fault f w1)
    | None =>
        match fs w !! p with
        | Some Dir => (Ret tt, w1)
        | Some (File _) =>
            (Raise (exn_of_fault (Failure (exists_message env p))), w1)
        | None => (Ret tt, set_fs (insert p Dir) w1)
        end
    end.

(** Lines 54-58 of the source, up to the closing of the clips. *)
Definition decode (video audio : string) : M unit :=
  fun w =>
    let '(remains, outcome) := decode_result env w video audio in
    let w1 := emit (Decode video audio) w in
    let w2 := match remains with
              | Some bytes => set_fs (insert audio (File bytes)) w1
              | None => w1
              end in
    match outcome with
    | None => (Ret tt, w2)
    | Some f => (Raise (exn_of_fault f), note_fault f w2)
    end.

(** [self.model.transcribe(str(audio_path), language="ru")["text"]] *)
Definition recognize (mdl audio : string) : M string :=
  fun w =>
    let w1 := emit (Transcribe mdl audio) w in
    match transcribe_result env w mdl audio with
    | inl text => (Ret text, w1)
    | inr f => (Raise (exn_of_fault f), note_fault f w1)
    end.

(** [with open(p, 'w', encoding='utf-8') as f: f.write(text)] *)
Definition write_text (p text : string) : M unit :=
  fun w =>
    let w1 := emit (OpenWrite p text) w in
    match write_result env w p text with
    | Written => (Ret tt, set_fs (insert p (File text)) w1)
    | WriteFailed None f => (Raise (exn_of_fault f), note_fault f w1)
    | WriteFailed (Some part) f =>
        (Raise (exn_of_fault f), note_fault f (set_fs (insert p (File part)) w1))
    end.

(** [p.unlink()] *)
Definition unlink (p : string) : M unit :=
  fun w =>
    let w1 := emit (Unlink p) w in
    match unlink_result env w p with
    | None => (Ret tt, set_fs (delete p) w1)
    | Some f => (Raise (exn_of_fault f), note_fault f w1)
    end.

(** [dir.glob("*" + suffix)] for a suffix without wildcard characters: the
    entries of [dir] whose name ends with [suffix], compared as the flavour
    of the platform compares names. *)
Definition name_matches (n suffix : string) : bool :=
  if case_sensitive env then Str.endswith n suffix
  else Str.endswith (Str.lower n) (Str.lower suffix).

Definition glob_matches (dir suffix p : string) : bool :=
  match Path.child_name dir p with
  | Some n => name_matches n suffix
  | None => false
  end.

Definition glob (dir suffix : string) (w : World) : list string :=
  List.filter (glob_matches dir suffix) (map fst (map_to_list (fs w))).

(** *** [VideoToTextConverter.__init__] *)

Definition __init__ (model_name : string) : M VideoToTextConverter :=
  print ("Загружаем модель Whisper: " +:+ model_name +:+ "...") ;;;
  let local_model_path := "whisper" // (model_name +:+ ".pt") in
  found <~ path_exists local_model_path ;;
  mdl <~ (if found then
            print ("Найдена локальная модель: " +:+ local_model_path) ;;;
            load_model local_model_path
          else
            print ("Локальная модель не найдена в " +:+ local_model_path) ;;;
            print "Загружаем модель из интернета..." ;;;
            load_model model_name) ;;
  let self := {| model := mdl; data_dir := "data"; output_dir := "output" |} in
  mkdir_exist_ok (data_dir self) ;;;
  mkdir_exist_ok (output_dir self) ;;;
  ret self.

Section Methods.

Variable self : VideoToTextConverter.

(** *** [extract_audio] *)
Definition extract_audio (video_path audio_path : string) : M unit :=
  print ("Извлекаем аудио из " +:+ Path.name video_path +:+ "...") ;;;
  try_except
    (decode video_path audio_path ;;;
     print ("Аудио сохранено: " +:+ audio_path))
    (except_Exception (fun e =>
       print ("Ошибка при извлечении аудио: " +:+ e) ;;;
       raise (Error e))).

(** *** [transcribe_audio] *)
Definition transcribe_audio (audio_path : string) : M string :=
  print ("Распознаем речь из " +:+ Path.name audio_path +:+ "...") ;;;
  try_except
    (recognize (model self) audio_path)
    (except_Exception (fun e =>
       print ("Ошибка при распознавании речи: " +:+ e) ;;;
       raise (Error e))).

(** *** [save_text] *)
Definition save_text (text output_path : string) : M unit :=
  try_except
    (write_text output_path text ;;;
     print ("Текст сохранен: " +:+ output_path))
    (except_Exception (fun e =>
       print ("Ошибка при сохранении файла: " +:+ e) ;;;
       raise (Error e))).

(** *** [process_video] *)
Definition audio_path_of (video_path : string) : string :=
  output_dir self // (Path.stem video_path +:+ "_temp.wav").

Definition text_path_of (video_path : string) : string :=
  output_dir self // (Path.stem video_path +:+ ".txt").

(** The three steps inside [try:], lines 113-122. *)
Definition steps (video_path : string) : M unit :=
  extract_audio video_path (audio_path_of video_path) ;;;
  text <~ transcribe_audio (audio_path_of video_path) ;;
  save_text text (text_path_of video_path) ;;;
  print ("✅ Видео " +:+ Path.name video_path +:+ " успешно обработано!").

(** The [except Exception as e:] clause, lines 124-125. *)
Definition report_failure (video_path e : string) : M unit :=
  print ("❌ Ошибка при обработке " +:+ Path.name video_path +:+ ": " +:+ e).

(** The [finally:] clause, lines 127-131. *)
Definition cleanup (audio_path : string) : M unit :=
  found <~ path_exists audio_path ;;
  if found then
    unlink audio_path ;;;
    print ("Временный файл " +:+ Path.name audio_path +:+ " удален")
  else ret tt.

(** The [try:] with its [except] clause, lines 112-125. *)
Definition attempt (video_path : string) : M unit :=
  try_except
    (steps video_path)
    (except_Exception (report_failure video_path)).

Definition header (video_path : string) : string :=
  Str.nl +:+ "=== Обработка видео: " +:+ Path.name video_path +:+ " ===".

Definition process_video (video_path : string) : M unit :=
  print (header video_path) ;;;
  try_finally
    (attempt video_path)
    (cleanup (audio_path_of video_path)).

(** *** [process_all_videos] *)

(** Lines 141-144: for each extension, the matches of the pattern as
    written and of its upper-case form. *)
Definition discover (w : World) : list string :=
  flat_map
    (fun ext => glob (data_dir self) ext w ++ glob (data_dir self) (Str.upper ext) w)
    (set_order env).

Definition process_all_videos : M unit :=
  fun w =>
    let video_files := discover w in
    match video_files with
    | [] =>
        (print ("❌ Видео файлы не найдены в папке " +:+ data_dir self) ;;;
         print ("Поддерживаемые форматы: " +:+ String.concat ", " (set_order env))) w
    | _ =>
        (print ("Найдено видео файлов: " +:+ pretty (length video_files)) ;;;
         for_each video_files process_video ;;;
         print (Str.nl +:+ "🎉 Обработка завершена! Результаты сохранены в папке "
                +:+ output_dir self)) w
    end.

End Methods.

(** *** [main] *)

(** The choice between one file and the input directory, lines 179-188.
    [if args.file:] is false for an absent option and for the empty string. *)
Definition dispatch (args : Args) (converter : VideoToTextConverter) : M unit :=
  match arg_file args with
  | Some f =>
      if String.eqb f "" then process_all_videos converter
      else
        let video_path := Path.of_string f in
        found <~ path_exists video_path ;;
        if negb found then
          print ("❌ Файл не найден: " +:+ video_path) ;;;
          sys_exit 1
        else process_video converter video_path
  | None => process_all_videos converter
  end.

(** The body of the [try:] of [main], lines 177-188. *)
Definition main_body (args : Args) : M unit :=
  converter <~ __init__ (arg_model args) ;;
  dispatch args converter.

(** The two [except] clauses of [main], lines 190-194. *)
Definition main_handlers (e : exn) : option (M unit) :=
  match e with
  | KeyboardInterrupt =>
      Some (print (Str.nl +:+ "⚠️ Обработка прервана пользователем"))
  | Error cause =>
      Some (print ("❌ Критическая ошибка: " +:+ cause) ;;; sys_exit 1)
  | SystemExit _ => None
  end.

Definition main (args : Args) : M unit :=
  try_except (main_body args) main_handlers.

(** The exit status of the interpreter: 0 when [main] returns, the code of
    [sys.exit], and 1 for an exception nobody caught (130 for an interrupt
    nobody caught, as a POSIX shell reports it). *)
Definition exit_code (r : res unit) : Z :=
  match r with
  | Ret _ => 0
  | Raise (SystemExit c) => c
  | Raise (Error _) => 1
  | Raise KeyboardInterrupt => 130
  end%Z.

Definition run (args : Args) (w : World) : Z * World :=
  let '(r, w') := main args w in (exit_code r, w').

End Program.

(** ** Vocabulary of the statements *)

(** The world in which the [finally:] clause of [process_video] starts, with
    the outcome of the [try:]/[except] before it. *)
Definition before_cleanup (env : Env) (self : VideoToTextConverter)
    (video_path : string) (w : World) : res unit * World :=
  attempt env self video_path (emit (Print (header video_path)) w).

(** [w'] differs from [w] only at paths satisfying [touch] and by new events
    satisfying [ok]. *)
Definition frame (touch : string → Prop) (ok : event → Prop) (w w' : World) : Prop :=
  (∀ p, ¬ touch p → fs w' !! p = fs w !! p) ∧
  ∃ evs, trace w' = trace w ++ evs ∧ Forall ok evs.

Definition keeps (touch : string → Prop) (ok : event → Prop) {A} (m : M A) : Prop :=
  ∀ w, frame touch ok w (snd (m w)).

(** Every exception [m] can raise satisfies [P]. *)
Definition raises_only (P : exn → Prop) {A} (m : M A) : Prop :=
  ∀ w e, fst (m w) = Raise e → P e.

(** The interrupt has arrived. *)
Definition interrupted (w : World) : Prop := Sigint ∈ trace w.

(** [m] raises [KeyboardInterrupt] exactly when the interrupt arrives while
    it runs. *)
Definition passes_interrupt {A} (m : M A) : Prop :=
  ∀ w, ¬ interrupted w →
       (interrupted (snd (m w)) ↔ fst (m w) = Raise KeyboardInterrupt).

(** Once the interrupt has arrived, no deletion raises an [Exception]. *)
Definition deletion_holds_after_interrupt (env : Env) : Prop :=
  ∀ w p cause, interrupted w → unlink_result env w p ≠ Some (Failure cause).

Definition is_print (ev : event) : Prop := ∃ line, ev = Print line.
Definition not_load (ev : event) : Prop := ∀ source, ev ≠ LoadModel source.
Definition not_write (ev : event) : Prop := ∀ p text, ev ≠ OpenWrite p text.
Definition not_exit (e : exn) : Prop := ∀ code, e ≠ SystemExit code.

(** [ev] does not load a model, and if it runs the recognizer, it runs the
    one loaded from [source]. *)
Definition uses_model (source : string) (ev : event) : Prop :=
  not_load ev ∧ ∀ mdl audio, ev = Transcribe mdl audio → mdl = source.

(** The world in which [load_model] is called: after the banner lines. *)
Definition after_banner (model_name : string) (w : World) : World :=
  let w1 := emit (Print ("Загружаем модель Whisper: " +:+ model_name +:+ "...")) w in
  if bool_decide (is_Some (fs w !! ("whisper" // (model_name +:+ ".pt"))))
  then emit (Print ("Найдена локальная модель: "
                    +:+ "whisper" // (model_name +:+ ".pt"))) w1
  else emit (Print "Загружаем модель из интернета...")
         (emit (Print ("Локальная модель не найдена в "
                       +:+ "whisper" // (model_name +:+ ".pt"))) w1).

Definition anywhere (p : string) : Prop := True.
Definition anything (ev : event) : Prop := True.

(** [m] records [ev] whenever it runs, however it ends. *)
Definition records (ev : event) {A} (m : M A) : Prop :=
  ∀ w, ev ∈ trace (snd (m w)).

(** What [load_model] is given: the local file when it exists, else the
    name of the model. *)
Definition model_source (model_name : string) (w : World) : string :=
  if bool_decide (is_Some (fs w !! ("whisper" // (model_name +:+ ".pt"))))
  then "whisper" // (model_name +:+ ".pt")
  else model_name.

(** One of the three sub-steps of a video raised an [Exception] with
    message [cause] when started in [w0], leaving the world [w1]. *)
Inductive step_failure (env : Env) (self : VideoToTextConverter)
    (video_path : string) (w0 : World) (cause : string) (w1 : World) : Prop :=
| extraction_failed :
    extract_audio env video_path (audio_path_of self video_path) w0
      = (Raise (Error cause), w1) →
    step_failure env self video_path w0 cause w1
| transcription_failed wa :
    extract_audio env video_path (audio_path_of self video_path) w0 = (Ret tt, wa) →
    transcribe_audio env self (audio_path_of self video_path) wa
      = (Raise (Error cause), w1) →
    step_failure env self video_path w0 cause w1
| persistence_failed wa wb text :
    extract_audio env video_path (audio_path_of self video_path) w0 = (Ret tt, wa) →
    transcribe_audio env self (audio_path_of self video_path) wa = (Ret text, wb) →
    save_text env text (text_path_of self video_path) wb = (Raise (Error cause), w1) →
    step_failure env self video_path w0 cause w1.

(** Extraction or transcription raised an [Exception]. *)
Inductive early_failure (env : Env) (self : VideoToTextConverter)
    (video_path : string) (w0 : World) (cause : string) (w1 : World) : Prop :=
| early_extraction :
    extract_audio env video_path (audio_path_of self video_path) w0
      = (Raise (Error cause), w1) →
    early_failure env self video_path w0 cause w1
| early_transcription wa :
    extract_audio env video_path (audio_path_of self video_path) w0 = (Ret tt, wa) →
    transcribe_audio env self (audio_path_of self video_path) wa
      = (Raise (Error cause), w1) →
    early_failure env self video_path w0 cause w1.

(** The three ways [main] ends with status 1. *)
Definition file_not_found (env : Env) (args : Args) (w : World) : Prop :=
  ∃ conv w1 f,
    __init__ env (arg_model args) w = (Ret conv, w1) ∧
    arg_file args = Some f ∧ f ≠ "" ∧ fs w1 !! Path.of_string f = None.

Definition init_fails (env : Env) (args : Args) (w : World) : Prop :=
  ∃ cause w1, __init__ env (arg_model args) w = (Raise (Error cause), w1).

Definition error_reaches_top (env : Env) (args : Args) (w : World) : Prop :=
  ∃ cause w1, main_body env args w = (Raise (Error cause), w1).

(** The fourteen suffixes [process_all_videos] searches for. *)
Definition patterns (order : list string) : list string :=
  flat_map (fun ext => [ext; Str.upper ext]) order.

(** No searched suffix is a proper ending of another one. *)
Definition suffix_free (pats : list string) : bool :=
  forallb (fun a => forallb (fun b => implb (Str.endswith a b) (String.eqb a b)) pats) pats.

(** Where a run may create or change something: the two directories and
    the direct children of the output directory. *)
Definition output_area (out : string) (p : string) : Prop :=
  p = "data" ∨ p = out ∨ is_Some (Path.child_name out p).

(** No deletion ever raises an [Exception]. *)
Definition deletion_never_fails (env : Env) : Prop :=
  ∀ w p cause, unlink_result env w p ≠ Some (Failure cause).

Definition not_error (e : exn) : Prop := ∀ cause, e ≠ Error cause.
Definition not_decode (ev : event) : Prop := ∀ video audio, ev ≠ Decode video audio.

(** The videos handed to the decoder, in the order of the calls. *)
Definition decoded_videos (evs : list event) : list string :=
  flat_map (fun ev => match ev with Decode video _ => [video] | _ => [] end) evs.

(** [m] calls the decoder exactly once, on [video], however it ends. *)
Definition decodes_once (video : string) {A} (m : M A) : Prop :=
  ∀ w, ∃ evs, trace (snd (m w)) = trace w ++ evs ∧ decoded_videos evs = [video].

(** What may still happen once the interrupt has arrived: messages and the
    deletion of a temporary file. *)
Definition calm (ev : event) : Prop :=
  match ev with
  | Print _ | Unlink _ | Sigint => True
  | _ => False
  end.

(** The events that follow the first arrival of the interrupt. *)
Fixpoint after_sigint (evs : list event) : list event :=
  match evs with
  | [] => []
  | Sigint :: rest => rest
  | _ :: rest => after_sigint rest
  end.

(** Started before the interrupt, [m] does nothing but calm things after
    it. *)
Definition winds_down {A} (m : M A) : Prop :=
  ∀ w, ¬ interrupted w →
       ∃ evs, trace (snd (m w)) = trace w ++ evs ∧ Forall calm (after_sigint evs).

(** When [m] returns, no interrupt has arrived. *)
Definition returns_quiet {A} (m : M A) : Prop :=
  ∀ w a, ¬ interrupted w → fst (m w) = Ret a → ¬ interrupted (snd (m w)).

(** The line each step prints before it re-raises. *)
Definition step_labels : list string :=
  ["Ошибка при извлечении аудио: "; "Ошибка при распознавании речи: ";
   "Ошибка при сохранении файла: "].

Global Instance node_eq_dec : EqDecision node.
Proof. solve_decision. Defined.

Global Instance event_eq_dec : EqDecision event.
Proof. solve_decision. Defined.

(** ** Scenarios *)

Module Scenario.

(** An environment in which the decoder, the recognizer and [unlink] answer
    as given and everything else succeeds, on a POSIX platform. *)
Definition world_of (dec : option string * option fault)
    (rec : string + fault) (del : option fault) : Env :=
  {| case_sensitive := true;
     set_order := video_extensions;
     load_model_result := fun _ _ => None;
     mkdir_result := fun _ _ => None;
     exists_message := fun p => "[Errno 17] File exists: '" +:+ p +:+ "'";
     decode_result := fun _ _ _ => dec;
     transcribe_result := fun _ _ _ => rec;
     write_result := fun _ _ _ => Written;
     unlink_result := fun _ _ => del |}.

Definition wav : option string * option fault := (Some "RIFF", None).
Definition half_wav : option string * option fault :=
  (Some "RI", Some (Failure "MoviePy error: failed to read the first frame")).
Definition speech : string + fault := inl " Добрый день. ".
Definition denied : option fault :=
  Some (Failure "[WinError 32] The process cannot access the file").

(** everything works *)
Definition quiet : Env := world_of wav speech None.
(** the temporary file cannot be deleted *)
Definition locked : Env := world_of wav speech denied.
(** the video cannot be decoded *)
Definition broken : Env := world_of half_wav speech None.
Definition broken_locked : Env := world_of half_wav speech denied.
(** the recognizer fails *)
Definition mute : Env := world_of wav (inr (Failure "CUDA out of memory")) None.
Definition mute_locked : Env :=
  world_of wav (inr (Failure "CUDA out of memory")) denied.
(** the user interrupts the recognizer *)
Definition stopped : Env := world_of wav (inr Interrupt) None.
Definition stopped_locked : Env := world_of wav (inr Interrupt) denied.
(** the disk is full *)
Definition full_disk : Env :=
  {| case_sensitive := true;
     set_order := video_extensions;
     load_model_result := fun _ _ => None;
     mkdir_result := fun _ _ => None;
     exists_message := fun p => "[Errno 17] File exists: '" +:+ p +:+ "'";
     decode_result := fun _ _ _ => wav;
     transcribe_result := fun _ _ _ => speech;
     write_result := fun _ _ _ =>
       WriteFailed (Some "") (Failure "[Errno 28] No space left on device");
     unlink_result := fun _ _ => None |}.
(** the model cannot be loaded *)
Definition no_model : Env :=
  {| case_sensitive := true;
     set_order := video_extensions;
     load_model_result := fun _ _ => Some (Failure "checksum does not match");
     mkdir_result := fun _ _ => None;
     exists_message := fun p => "[Errno 17] File exists: '" +:+ p +:+ "'";
     decode_result := fun _ _ _ => wav;
     transcribe_result := fun _ _ _ => speech;
     write_result := fun _ _ _ => Written;
     unlink_result := fun _ _ => None |}.
(** a platform whose glob ignores case *)
Definition windows : Env :=
  {| case_sensitive := false;
     set_order := video_extensions;
     load_model_result := fun _ _ => None;
     mkdir_result := fun _ _ => None;
     exists_message := fun p => "[Errno 17] File exists: '" +:+ p +:+ "'";
     decode_result := fun _ _ _ => wav;
     transcribe_result := fun _ _ _ => speech;
     write_result := fun _ _ _ => Written;
     unlink_result := fun _ _ => None |}.

Definition disk (files : list (string * node)) : World :=
  {| fs := list_to_map files; trace := [] |}.

(** the end-to-end scenario of the specification *)
Definition lectures : World :=
  disk [("data", Dir); ("output", Dir);
        ("data/talk.mp4", File "v1"); ("data/clip.MP4", File "v2");
        ("data/notes.txt", File "todo")].

Definition mixed_case : World :=
  disk [("data", Dir); ("output", Dir); ("data/intro.Mp4", File "v3")].

Definition empty_dir : World := disk [("data", Dir); ("output", Dir)].

(** an old transcript is already there *)
Definition rerun : World :=
  disk [("data", Dir); ("output", Dir);
        ("data/talk.mp4", File "v1"); ("output/talk.txt", File "old text")].

Definition conv : VideoToTextConverter :=
  {| model := "base"; data_dir := "data"; output_dir := "output" |}.

Definition batch : Args := {| arg_model := "base"; arg_file := None |}.
Definition single (f : string) : Args :=
  {| arg_model := "base"; arg_file := Some f |}.

End Scenario.

(** ** Equations of the monad *)

Lemma bind_ret_eq {A B} (m : M A) (k : A → M B) w a w1 :
  m w = (Ret a, w1) → bind m k w = k a w1.
Proof. unfold bind. now intros ->. Qed.

Lemma bind_raise_eq {A B} (m : M A) (k : A → M B) w e w1 :
  m w = (Raise e, w1) → bind m k w = (Raise e, w1).
Proof. unfold bind. now intros ->. Qed.

Lemma print_then {B} line (k : M B) w :
  bind (print line) (fun _ => k) w = k (emit (Print line) w).
Proof. reflexivity. Qed.

Lemma try_except_ret_eq {A} (body : M A) handler w a w1 :
  body w = (Ret a, w1) → try_except body handler w = (Ret a, w1).
Proof. unfold try_except. now intros ->. Qed.

Lemma try_except_error_eq {A} (body : M A) (h : string → M A) w cause w1 :
  body w = (Raise (Error cause), w1) →
  try_except body (except_Exception h) w = h cause w1.
Proof. unfold try_except. now intros ->. Qed.

Lemma for_each_cons_ret {A} (x : A) rest body w w1 :
  body x w = (Ret tt, w1) → for_each (x :: rest) body w = for_each rest body w1.
Proof. intros H. simpl. now rewrite (bind_ret_eq _ _ _ _ _ H). Qed.

Lemma for_each_cons_raise {A} (x : A) rest body w e w1 :
  body x w = (Raise e, w1) → for_each (x :: rest) body w = (Raise e, w1).
Proof. intros H. simpl. now rewrite (bind_raise_eq _ _ _ _ _ H). Qed.

(** ** Frames: what a computation leaves untouched *)

Section Frames.

Variable touch : string → Prop.
Variable ok : event → Prop.

Lemma frame_refl w : frame touch ok w w.
Proof. split; [done|]. exists []. by rewrite app_nil_r. Qed.

Lemma frame_trans w1 w2 w3 :
  frame touch ok w1 w2 → frame touch ok w2 w3 → frame touch ok w1 w3.
Proof.
  intros [Hf1 (e1 & Ht1 & Ho1)] [Hf2 (e2 & Ht2 & Ho2)]. split.
  - intros p Hp. by rewrite Hf2, Hf1.
  - exists (e1 ++ e2). split; [by rewrite Ht2, Ht1, app_assoc|].
    by apply Forall_app.
Qed.

Lemma frame_emit ev w : ok ev → frame touch ok w (emit ev w).
Proof. intros H. split; [done|]. exists [ev]. split; [done|]. by constructor. Qed.

Lemma frame_note_fault f w : ok Sigint → frame touch ok w (note_fault f w).
Proof. intros H. destruct f; simpl; [apply frame_refl | by apply frame_emit]. Qed.

Lemma frame_insert p n w : touch p → frame touch ok w (set_fs (insert p n) w).
Proof.
  intros Hp. split.
  - intros q Hq. simpl. apply lookup_insert_ne. by intros ->.
  - exists []. by rewrite app_nil_r.
Qed.

Lemma frame_delete p w : touch p → frame touch ok w (set_fs (delete p) w).
Proof.
  intros Hp. split.
  - intros q Hq. simpl. apply lookup_delete_ne. by intros ->.
  - exists []. by rewrite app_nil_r.
Qed.

Lemma keeps_ret {A} (a : A) : keeps touch ok (ret a).
Proof. intros w. apply frame_refl. Qed.

Lemma keeps_raise {A} e : keeps touch ok (@raise A e).
Proof. intros w. apply frame_refl. Qed.

Lemma keeps_bind {A B} (m : M A) (k : A → M B) :
  keeps touch ok m → (∀ a, keeps touch ok (k a)) → keeps touch ok (bind m k).
Proof.
  intros Hm Hk w. unfold bind. specialize (Hm w).
  destruct (m w) as [[a|e] w1]; simpl in *; [|done].
  eapply frame_trans; [done | apply Hk].
Qed.

Lemma keeps_try_except {A} (body : M A) handler :
  keeps touch ok body →
  (∀ e h, handler e = Some h → keeps touch ok h) →
  keeps touch ok (try_except body handler).
Proof.
  intros Hb Hh w. unfold try_except. specialize (Hb w).
  destruct (body w) as [[a|e] w1]; simpl in *; [done|].
  destruct (handler e) as [h|] eqn:He; [|done].
  eapply frame_trans; [done | by eapply Hh].
Qed.

Lemma keeps_except_Exception {A} (body : M A) h :
  keeps touch ok body → (∀ cause, keeps touch ok (h cause)) →
  keeps touch ok (try_except body (except_Exception h)).
Proof.
  intros Hb Hh. apply keeps_try_except; [done|].
  intros [cause| |code] k; simpl; intros [= <-]. apply Hh.
Qed.

Lemma keeps_try_finally {A} (body : M A) final :
  keeps touch ok body → keeps touch ok final →
  keeps touch ok (try_finally body final).
Proof.
  intros Hb Hf w. unfold try_finally. specialize (Hb w).
  destruct (body w) as [r w1]. specialize (Hf w1).
  destruct (final w1) as [[[]|e] w2]; simpl in *; by eapply frame_trans.
Qed.

Lemma keeps_for_each {A} (xs : list A) body :
  (∀ x, keeps touch ok (body x)) → keeps touch ok (for_each xs body).
Proof.
  intros Hb. induction xs as [|x xs IH]; simpl.
  - apply keeps_ret.
  - by apply keeps_bind.
Qed.

Lemma keeps_print line : ok (Print line) → keeps touch ok (print line).
Proof. intros H w. by apply frame_emit. Qed.

Lemma keeps_path_exists p : keeps touch ok (path_exists p).
Proof. intros w. apply frame_refl. Qed.

Section Calls.

Variable env : Env.
Hypothesis ok_sigint : ok Sigint.

Lemma keeps_load_model source :
  ok (LoadModel source) → keeps touch ok (load_model env source).
Proof.
  intros H w. unfold load_model.
  destruct (load_model_result env w source); simpl.
  - eapply frame_trans; [by apply frame_emit | by apply frame_note_fault].
  - by apply frame_emit.
Qed.

Lemma keeps_mkdir p :
  touch p → ok (Mkdir p) → keeps touch ok (mkdir_exist_ok env p).
Proof.
  intros Hp H w. unfold mkdir_exist_ok.
  destruct (mkdir_result env w p); simpl.
  - eapply frame_trans; [by apply frame_emit | by apply frame_note_fault].
  - destruct (fs w !! p) as [[content|]|]; simpl; [by apply frame_emit..|].
    eapply frame_trans; [by apply frame_emit | by apply frame_insert].
Qed.

Lemma keeps_decode video audio :
  touch audio → ok (Decode video audio) → keeps touch ok (decode env video audio).
Proof.
  intros Hp H w. unfold decode.
  destruct (decode_result env w video audio) as [remains outcome].
  assert (frame touch ok w
            match remains with
            | Some bytes => set_fs (insert audio (File bytes)) (emit (Decode video audio) w)
            | None => emit (Decode video audio) w
            end) as Hw.
  { destruct remains; [|by apply frame_emit].
    eapply frame_trans; [by apply frame_emit | by apply frame_insert]. }
  destruct outcome; simpl; [|done].
  eapply frame_trans; [done | by apply frame_note_fault].
Qed.

Lemma keeps_recognize mdl audio :
  ok (Transcribe mdl audio) → keeps touch ok (recognize env mdl audio).
Proof.
  intros H w. unfold recognize.
  destruct (transcribe_result env w mdl audio); simpl.
  - by apply frame_emit.
  - eapply frame_trans; [by apply frame_emit | by apply frame_note_fault].
Qed.

Lemma keeps_write_text p text :
  touch p → ok (OpenWrite p text) → keeps touch ok (write_text env p text).
Proof.
  intros Hp H w. unfold write_text.
  destruct (write_result env w p text) as [|[part|] f]; simpl.
  - eapply frame_trans; [by apply frame_emit | by apply frame_insert].
  - eapply frame_trans; [by apply frame_emit|].
    eapply frame_trans; [by apply frame_insert | by apply frame_note_fault].
  - eapply frame_trans; [by apply frame_emit | by apply frame_note_fault].
Qed.

Lemma keeps_unlink p :
  touch p → ok (Unlink p) → keeps touch ok (unlink env p).
Proof.
  intros Hp H w. unfold unlink.
  destruct (unlink_result env w p); simpl.
  - eapply frame_trans; [by apply frame_emit | by apply frame_note_fault].
  - eapply frame_trans; [by apply frame_emit | by apply frame_delete].
Qed.

End Calls.

End Frames.

(** ** Which exceptions a computation can raise *)

Section Raises.

Variable P : exn → Prop.

Lemma raises_ret {A} (a : A) : raises_only P (ret a).
Proof. by intros w e. Qed.

Lemma raises_raise {A} e : P e → raises_only P (@raise A e).
Proof. by intros H w e' [= <-]. Qed.

Lemma raises_bind {A B} (m : M A) (k : A → M B) :
  raises_only P m → (∀ a, raises_only P (k a)) → raises_only P (bind m k).
Proof.
  intros Hm Hk w e. unfold bind. specialize (Hm w).
  destruct (m w) as [[a|e'] w1]; simpl in *; [apply Hk|].
  intros [= <-]. by apply Hm.
Qed.

Lemma raises_try_except {A} (body : M A) handler :
  raises_only P body →
  (∀ e h, handler e = Some h → raises_only P h) →
  raises_only P (try_except body handler).
Proof.
  intros Hb Hh w e. unfold try_except. specialize (Hb w).
  destruct (body w) as [[a|e'] w1]; simpl in *; [done|].
  destruct (handler e') as [h|] eqn:He; [by eapply Hh | apply Hb].
Qed.

Lemma raises_except_Exception {A} (body : M A) h :
  raises_only P body → (∀ cause, raises_only P (h cause)) →
  raises_only P (try_except body (except_Exception h)).
Proof.
  intros Hb Hh. apply raises_try_except; [done|].
  intros [cause| |code] k; simpl; intros [= <-]. apply Hh.
Qed.

Lemma raises_try_finally {A} (body : M A) final :
  raises_only P body → raises_only P final →
  raises_only P (try_finally body final).
Proof.
  intros Hb Hf w e. unfold try_finally. specialize (Hb w).
  destruct (body w) as [r w1]. specialize (Hf w1).
  destruct (final w1) as [[[]|e'] w2]; simpl in *; [apply Hb|].
  intros [= <-]. by apply Hf.
Qed.

Lemma raises_for_each {A} (xs : list A) body :
  (∀ x, raises_only P (body x)) → raises_only P (for_each xs body).
Proof.
  intros Hb. induction xs as [|x xs IH]; simpl.
  - apply raises_ret.
  - by apply raises_bind.
Qed.

Lemma raises_print line : raises_only P (print line).
Proof. by intros w e. Qed.

Lemma raises_path_exists p : raises_only P (path_exists p).
Proof. by intros w e. Qed.

Section Calls.

Variable env : Env.
Hypothesis P_fault : ∀ f, P (exn_of_fault f).

Lemma raises_load_model source : raises_only P (load_model env source).
Proof.
  intros w e. unfold load_model.
  destruct (load_model_result env w source); simpl; [|done].
  intros [= <-]. apply P_fault.
Qed.

Lemma raises_mkdir p : raises_only P (mkdir_exist_ok env p).
Proof.
  intros w e. unfold mkdir_exist_ok.
  destruct (mkdir_result env w p); simpl; [intros [= <-]; apply P_fault|].
  destruct (fs w !! p) as [[content|]|]; simpl; [|done..].
  intros [= <-]. apply (P_fault (Failure _)).
Qed.

Lemma raises_decode video audio : raises_only P (decode env video audio).
Proof.
  intros w e. unfold decode.
  destruct (decode_result env w video audio) as [remains [f|]]; simpl; [|done].
  intros [= <-]. apply P_fault.
Qed.

Lemma raises_recognize mdl audio : raises_only P (recognize env mdl audio).
Proof.
  intros w e. unfold recognize.
  destruct (transcribe_result env w mdl audio); simpl; [done|].
  intros [= <-]. apply P_fault.
Qed.

Lemma raises_write_text p text : raises_only P (write_text env p text).
Proof.
  intros w e. unfold write_text.
  destruct (write_result env w p text) as [|[part|] f]; simpl; [done|..];
    intros [= <-]; apply P_fault.
Qed.

Lemma raises_unlink p : raises_only P (unlink env p).
Proof.
  intros w e. unfold unlink.
  destruct (unlink_result env w p); simpl; [|done].
  intros [= <-]. apply P_fault.
Qed.

End Calls.

End Raises.

(** ** How the interrupt travels *)

Lemma interrupted_emit ev w :
  interrupted (emit ev w) ↔ interrupted w ∨ ev = Sigint.
Proof.
  unfold interrupted, emit; simpl. rewrite elem_of_app, list_elem_of_singleton.
  intuition.
Qed.

Lemma interrupted_set_fs f w : interrupted (set_fs f w) ↔ interrupted w.
Proof. done. Qed.

Lemma interrupted_note_fault f w :
  interrupted (note_fault f w) ↔ interrupted w ∨ f = Interrupt.
Proof.
  destruct f; simpl.
  - split; [by left | by intros [?|?]].
  - rewrite interrupted_emit. intuition.
Qed.

Lemma exn_of_fault_interrupt f :
  exn_of_fault f = KeyboardInterrupt ↔ f = Interrupt.
Proof. by destruct f. Qed.

Section Interrupts.

Lemma passes_ret {A} (a : A) : passes_interrupt (ret a).
Proof. intros w Hw. simpl. split; [done | by intros [=]]. Qed.

Lemma passes_raise {A} e : e ≠ KeyboardInterrupt → passes_interrupt (@raise A e).
Proof. intros He w Hw. simpl. split; [done | by intros [= ->]]. Qed.

Lemma passes_bind {A B} (m : M A) (k : A → M B) :
  passes_interrupt m → (∀ a, passes_interrupt (k a)) → passes_interrupt (bind m k).
Proof.
  intros Hm Hk w Hw. unfold bind. specialize (Hm w Hw).
  destruct (m w) as [[a|e] w1]; simpl in *.
  - apply Hk. rewrite Hm. by intros [=].
  - rewrite Hm. split; by intros [= ->].
Qed.

Lemma passes_except_Exception {A} (body : M A) h :
  passes_interrupt body → (∀ cause, passes_interrupt (h cause)) →
  passes_interrupt (try_except body (except_Exception h)).
Proof.
  intros Hb Hh w Hw. unfold try_except. specialize (Hb w Hw).
  destruct (body w) as [[a|[cause| |code]] w1]; simpl in *; try done.
  apply Hh. rewrite Hb. by intros [=].
Qed.

(** Once the interrupt is on its way, [final] must not raise anything
    else, or it would replace the interrupt. *)
Lemma passes_try_finally {A} (body : M A) final :
  passes_interrupt body → passes_interrupt final →
  (∀ w, interrupted w →
        interrupted (snd (final w)) ∧
        (fst (final w) = Ret tt ∨ fst (final w) = Raise KeyboardInterrupt)) →
  passes_interrupt (try_finally body final).
Proof.
  intros Hb Hf Hafter w Hw. unfold try_finally. specialize (Hb w Hw).
  destruct (body w) as [r w1]; simpl in Hb.
  assert (r = Raise KeyboardInterrupt ∨ r ≠ Raise KeyboardInterrupt) as [->|Hr].
  { destruct r as [a|[cause| |code]]; by auto. }
  - destruct (Hafter w1) as [Hi Hres]; [by apply Hb|].
    destruct (final w1) as [[[]|e] w2]; simpl in *; [done|].
    destruct Hres as [[=]|[= ->]]. done.
  - assert (¬ interrupted w1) as Hw1 by (by rewrite Hb).
    specialize (Hf w1 Hw1).
    destruct (final w1) as [[[]|e] w2]; simpl in *.
    + split; [by intros ?%Hf | done].
    + rewrite Hf. split; by intros [= ->].
Qed.

Lemma passes_for_each {A} (xs : list A) body :
  (∀ x, passes_interrupt (body x)) → passes_interrupt (for_each xs body).
Proof.
  intros Hb. induction xs as [|x xs IH]; simpl.
  - apply passes_ret.
  - by apply passes_bind.
Qed.

Lemma passes_print line : passes_interrupt (print line).
Proof.
  intros w Hw. simpl. rewrite interrupted_emit.
  split; [by intros [?|?] | by intros [=]].
Qed.

Lemma passes_path_exists p : passes_interrupt (path_exists p).
Proof. intros w Hw. simpl. split; [done | by intros [=]]. Qed.

Variable env : Env.

Ltac call_passes :=
  simpl; rewrite ?interrupted_note_fault, ?interrupted_set_fs, ?interrupted_emit;
  repeat match goal with f : fault |- _ => destruct f end;
  simpl; intuition congruence.

Lemma passes_load_model source : passes_interrupt (load_model env source).
Proof.
  intros w Hw. unfold load_model.
  destruct (load_model_result env w source); call_passes.
Qed.

Lemma passes_mkdir p : passes_interrupt (mkdir_exist_ok env p).
Proof.
  intros w Hw. unfold mkdir_exist_ok.
  destruct (mkdir_result env w p); [call_passes|].
  destruct (fs w !! p) as [[content|]|]; call_passes.
Qed.

Lemma passes_decode video audio : passes_interrupt (decode env video audio).
Proof.
  intros w Hw. unfold decode.
  destruct (decode_result env w video audio) as [[bytes|] [f|]]; call_passes.
Qed.

Lemma passes_recognize mdl audio : passes_interrupt (recognize env mdl audio).
Proof.
  intros w Hw. unfold recognize.
  destruct (transcribe_result env w mdl audio); call_passes.
Qed.

Lemma passes_write_text p text : passes_interrupt (write_text env p text).
Proof.
  intros w Hw. unfold write_text.
  destruct (write_result env w p text) as [|[part|] f]; call_passes.
Qed.

Lemma passes_unlink p : passes_interrupt (unlink env p).
Proof.
  intros w Hw. unfold unlink.
  destruct (unlink_result env w p); call_passes.
Qed.

End Interrupts.

(** ** The methods of the converter, one by one *)

Section MethodFrames.

Variable env : Env.
Variable self : VideoToTextConverter.
Variable touch : string → Prop.
Variable ok : event → Prop.
Hypothesis ok_print : ∀ line, ok (Print line).
Hypothesis ok_sigint : ok Sigint.

Ltac frames :=
  repeat first
    [ apply keeps_ret | apply keeps_raise | apply keeps_path_exists
    | apply keeps_print | apply keeps_bind | apply keeps_except_Exception
    | apply keeps_try_finally | apply keeps_for_each
    | apply keeps_decode | apply keeps_recognize | apply keeps_write_text
    | apply keeps_unlink | apply keeps_mkdir | apply keeps_load_model
    | done | intros ? ].

Lemma extract_audio_keeps video audio :
  touch audio → ok (Decode video audio) →
  keeps touch ok (extract_audio env video audio).
Proof. intros Ht Hd. unfold extract_audio. frames. Qed.

Lemma transcribe_audio_keeps audio :
  ok (Transcribe (model self) audio) →
  keeps touch ok (transcribe_audio env self audio).
Proof. intros Hd. unfold transcribe_audio. frames. Qed.

Lemma save_text_keeps text p :
  touch p → ok (OpenWrite p text) → keeps touch ok (save_text env text p).
Proof. intros Ht Hd. unfold save_text. frames. Qed.

Lemma report_failure_keeps video cause :
  keeps touch ok (report_failure video cause).
Proof. unfold report_failure. frames. Qed.

Lemma cleanup_keeps audio :
  touch audio → ok (Unlink audio) → keeps touch ok (cleanup env audio).
Proof.
  intros Ht Hd. unfold cleanup. frames.
  match goal with b : bool |- _ => destruct b end; frames.
Qed.

End MethodFrames.

(** ** The [finally:] clause *)

Lemma process_video_eq env self video w :
  process_video env self video w =
  match cleanup env (audio_path_of self video) (snd (before_cleanup env self video w)) with
  | (Ret _, w2) => ((fst (before_cleanup env self video w)), w2)
  | (Raise e, w2) => (Raise e, w2)
  end.
Proof.
  unfold process_video, before_cleanup. rewrite print_then. unfold try_finally.
  by destruct (attempt env self video _).
Qed.

Lemma cleanup_absent env audio w :
  fs w !! audio = None → cleanup env audio w = (Ret tt, w).
Proof.
  intros H. unfold cleanup, bind, path_exists.
  rewrite bool_decide_eq_false_2; [done|]. rewrite H. by intros [? [=]].
Qed.

Lemma cleanup_deleted env audio w :
  is_Some (fs w !! audio) → unlink_result env w audio = None →
  cleanup env audio w =
  (Ret tt, emit (Print ("Временный файл " +:+ Path.name audio +:+ " удален"))
             (set_fs (delete audio) (emit (Unlink audio) w))).
Proof.
  intros H Hu. unfold cleanup, bind, path_exists.
  rewrite bool_decide_eq_true_2; [|done]. unfold unlink. by rewrite Hu.
Qed.

Lemma cleanup_failed env audio w f :
  is_Some (fs w !! audio) → unlink_result env w audio = Some f →
  cleanup env audio w = (Raise (exn_of_fault f), note_fault f (emit (Unlink audio) w)).
Proof.
  intros H Hu. unfold cleanup, bind, path_exists.
  rewrite bool_decide_eq_true_2; [|done]. unfold unlink. by rewrite Hu.
Qed.

(** The top-level handlers. *)
Lemma run_error env args w cause w1 :
  main_body env args w = (Raise (Error cause), w1) →
  run env args w = (1%Z, emit (Print ("❌ Критическая ошибка: " +:+ cause)) w1).
Proof. intros H. unfold run, main, try_except. by rewrite H. Qed.

Lemma run_interrupt env args w w1 :
  main_body env args w = (Raise KeyboardInterrupt, w1) →
  run env args w =
  (0%Z, emit (Print (Str.nl +:+ "⚠️ Обработка прервана пользователем")) w1).
Proof. intros H. unfold run, main, try_except. by rewrite H. Qed.

Lemma run_exit env args w code w1 :
  main_body env args w = (Raise (SystemExit code), w1) →
  run env args w = (code, w1).
Proof. intros H. unfold run, main, try_except. by rewrite H. Qed.

Lemma run_ret env args w w1 :
  main_body env args w = (Ret tt, w1) → run env args w = (0%Z, w1).
Proof. intros H. unfold run, main, try_except. by rewrite H. Qed.

(** How [main] reaches the per-video processor. *)
Lemma main_body_file env args w self w1 f :
  __init__ env (arg_model args) w = (Ret self, w1) →
  arg_file args = Some f → f ≠ "" → is_Some (fs w1 !! Path.of_string f) →
  main_body env args w = process_video env self (Path.of_string f) w1.
Proof.
  intros Hi Hf Hne Hex. unfold main_body.
  rewrite (bind_ret_eq _ _ _ _ _ Hi). unfold dispatch. rewrite Hf.
  assert (String.eqb f "" = false) as -> by (by apply String.eqb_neq).
  cbv zeta. unfold bind at 1, path_exists. by rewrite bool_decide_eq_true_2.
Qed.

Lemma main_body_batch env args w self w1 :
  __init__ env (arg_model args) w = (Ret self, w1) →
  arg_file args = None ∨ arg_file args = Some "" →
  main_body env args w = process_all_videos env self w1.
Proof.
  intros Hi Hf. unfold main_body. rewrite (bind_ret_eq _ _ _ _ _ Hi).
  unfold dispatch. by destruct Hf as [-> | ->].
Qed.

Lemma process_all_videos_cons env self w video rest :
  discover env self w = video :: rest →
  process_all_videos env self w =
  (for_each (video :: rest) (process_video env self) ;;;
   print (Str.nl +:+ "🎉 Обработка завершена! Результаты сохранены в папке "
          +:+ output_dir self))
    (emit (Print ("Найдено видео файлов: " +:+ pretty (length (video :: rest)))) w).
Proof. intros H. unfold process_all_videos. by rewrite H. Qed.

(** ** C1: a failing deletion of the intermediate audio *)

(** C1, as amended.  When the intermediate audio exists at cleanup time and
    its deletion raises an exception, [process_video] does not handle it: the
    exception leaves the per-video processor, the file stays, the loop over
    the videos stops without attempting the remaining ones, and [main] ends
    with the critical-error message and exit code 1, both for [--file] and
    for a directory scan. *)
Theorem deletion_failure_propagates env self video w cause :
  let audio := audio_path_of self video in
  let w1 := (snd (before_cleanup env self video w)) in
  let w2 := emit (Unlink audio) w1 in
  is_Some (fs w1 !! audio) →
  unlink_result env w1 audio = Some (Failure cause) →
  process_video env self video w = (Raise (Error cause), w2)
  ∧ is_Some (fs w2 !! audio)
  ∧ (∀ rest, for_each (video :: rest) (process_video env self) w
             = (Raise (Error cause), w2))
  ∧ (∀ args w0 f,
        __init__ env (arg_model args) w0 = (Ret self, w) →
        arg_file args = Some f → f ≠ "" → Path.of_string f = video →
        is_Some (fs w !! video) →
        run env args w0
        = (1%Z, emit (Print ("❌ Критическая ошибка: " +:+ cause)) w2))
  ∧ (∀ args w0 wi rest,
        __init__ env (arg_model args) w0 = (Ret self, wi) →
        arg_file args = None ∨ arg_file args = Some "" →
        discover env self wi = video :: rest →
        w = emit (Print ("Найдено видео файлов: "
                         +:+ pretty (length (video :: rest)))) wi →
        run env args w0
        = (1%Z, emit (Print ("❌ Критическая ошибка: " +:+ cause)) w2)).
Proof.
  intros audio w1 w2 Hex Hfail.
  assert (process_video env self video w = (Raise (Error cause), w2)) as Hpv.
  { rewrite process_video_eq. fold w1 audio.
    by rewrite (cleanup_failed _ _ _ _ Hex Hfail). }
  split; [done|]. split; [done|]. split; [|split].
  - intros rest. by apply for_each_cons_raise.
  - intros args w0 f Hi Hf Hne <- Hthere. apply run_error.
    by rewrite (main_body_file _ _ _ _ _ _ Hi Hf Hne Hthere).
  - intros args w0 wi rest Hi Hf Hd ->. apply run_error.
    rewrite (main_body_batch _ _ _ _ _ Hi Hf).
    rewrite (process_all_videos_cons _ _ _ _ _ Hd).
    apply bind_raise_eq. by apply for_each_cons_raise.
Qed.

(** An instance: the first of two lectures is transcribed, but its temporary
    file is held by another process. *)
Lemma deletion_failure_propagates_witness :
  process_video Scenario.locked Scenario.conv "data/talk.mp4" Scenario.lectures
  = (Raise (Error "[WinError 32] The process cannot access the file"),
     emit (Unlink "output/talk_temp.wav")
       (snd (before_cleanup Scenario.locked Scenario.conv "data/talk.mp4"
          Scenario.lectures))).
Proof.
  refine (proj1 (deletion_failure_propagates Scenario.locked Scenario.conv
                   "data/talk.mp4" Scenario.lectures
                   "[WinError 32] The process cannot access the file" _ _)).
  - vm_compute. eexists. reflexivity.
  - vm_compute. reflexivity.
Defined.

(** C1 as stated fails: with two lectures in the input directory and a
    temporary file that cannot be deleted, the exception of the cleanup
    leaves [process_video], the exit code is 1 and the second lecture is
    never decoded, although it is when the deletion works. *)
Lemma deletion_failure_escalates :
  is_Some (fs (snd (before_cleanup Scenario.locked Scenario.conv "data/talk.mp4"
                 Scenario.lectures)) !! "output/talk_temp.wav")
  ∧ fst (process_video Scenario.locked Scenario.conv "data/talk.mp4" Scenario.lectures)
    = Raise (Error "[WinError 32] The process cannot access the file")
  ∧ fst (run Scenario.locked Scenario.batch Scenario.lectures) = 1%Z
  ∧ (Decode "data/clip.MP4" "output/clip_temp.wav"
     ∉ trace (snd (run Scenario.locked Scenario.batch Scenario.lectures)))
  ∧ (Decode "data/clip.MP4" "output/clip_temp.wav"
     ∈ trace (snd (run Scenario.quiet Scenario.batch Scenario.lectures))).
Proof.
  split; [vm_compute; eexists; reflexivity|].
  split; [vm_compute; reflexivity|].
  split; [vm_compute; reflexivity|].
  split; apply (bool_decide_unpack _); vm_compute; exact I.
Qed.

(** ** C2: input discovery *)

Lemma endswith_cons c r suf :
  Str.endswith (String c r) suf
  = if String.eqb (String c r) suf then true else Str.endswith r suf.
Proof. reflexivity. Qed.

Lemma endswith_refl s : Str.endswith s s = true.
Proof. destruct s; simpl; by rewrite ?Ascii.eqb_refl, ?String.eqb_refl. Qed.

(** Two endings of the same name: one is an ending of the other. *)
Lemma endswith_comparable s a b :
  Str.endswith s a = true → Str.endswith s b = true →
  Str.endswith a b = true ∨ Str.endswith b a = true.
Proof.
  induction s as [|c r IH].
  - simpl. destruct a, b; simpl; try done. by left.
  - rewrite !endswith_cons.
    destruct (String.eqb_spec (String c r) a) as [<-|Ha].
    + intros _ Hb. left. by rewrite endswith_cons.
    + destruct (String.eqb_spec (String c r) b) as [<-|Hb].
      * intros Hra _. right. rewrite endswith_cons.
        destruct (String.eqb_spec (String c r) a); done.
      * apply IH.
Qed.

Lemma suffix_free_spec pats a b :
  suffix_free pats = true → In a pats → In b pats →
  Str.endswith a b = true → a = b.
Proof.
  unfold suffix_free. rewrite forallb_forall. intros H Ha Hb Hab.
  specialize (H a Ha). rewrite forallb_forall in H. specialize (H b Hb).
  rewrite Hab in H. simpl in H. by apply String.eqb_eq.
Qed.

Lemma count_occ_filter_bool {A} (dec : ∀ x y : A, {x = y} + {x ≠ y}) f l x :
  count_occ dec (List.filter f l) x = if f x then count_occ dec l x else 0.
Proof.
  induction l as [|y l IH]; simpl.
  - by destruct (f x).
  - destruct (f y) eqn:Hy; simpl; destruct (dec y x) as [->|Hne]; try done.
    + by rewrite IH, Hy.
    + by rewrite IH, Hy.
Qed.

Lemma count_occ_flat_map {A B} (dec : ∀ x y : B, {x = y} + {x ≠ y})
    (g : A → list B) (hit : A → bool) l x :
  (∀ a, count_occ dec (g a) x = if hit a then 1 else 0) →
  count_occ dec (flat_map g l) x = length (List.filter hit l).
Proof.
  intros Hg. induction l as [|a l IH]; simpl; [done|].
  rewrite count_occ_app, Hg, IH. by destruct (hit a).
Qed.

Lemma filter_length_Permutation {A} (f : A → bool) l1 l2 :
  l1 ≡ₚ l2 → length (List.filter f l1) = length (List.filter f l2).
Proof.
  induction 1 as [|x l1 l2 _ IH|x y l|l1 l2 l3 _ IH1 _ IH2]; simpl.
  - done.
  - destruct (f x); simpl; by rewrite IH.
  - by destruct (f x), (f y).
  - by rewrite IH1.
Qed.

Lemma filter_none {A} (f : A → bool) l :
  (∀ y, y ∈ l → f y = false) → List.filter f l = [].
Proof.
  induction l as [|z l IH]; simpl; [done|]. intros H.
  rewrite (H z) by left. apply IH. intros y Hy. apply H. by right.
Qed.

Lemma filter_length_unique {A} (f : A → bool) l x :
  NoDup l → x ∈ l → f x = true → (∀ y, y ∈ l → f y = true → y = x) →
  length (List.filter f l) = 1.
Proof.
  induction 1 as [|y l Hy Hnd IH]; simpl.
  - by intros ?%elem_of_nil.
  - intros [->|Hin]%elem_of_cons Hfx Huniq.
    + rewrite Hfx. simpl. rewrite filter_none; [done|].
      intros z Hz. destruct (f z) eqn:Hfz; [|done].
      destruct Hy. rewrite <- (Huniq z); [done | by right | done].
    + destruct (f y) eqn:Hfy.
      * destruct Hy. rewrite (Huniq y); [done | by left | done].
      * apply IH; [done..|]. intros z Hz. apply Huniq. by right.
Qed.

Lemma patterns_flat_map {B} (g : string → list B) order :
  flat_map (fun ext => g ext ++ g (Str.upper ext)) order
  = flat_map g (patterns order).
Proof.
  induction order as [|e order IH]; simpl; [done|].
  by rewrite IH, app_assoc.
Qed.

Lemma discover_eq env self w :
  discover env self w
  = flat_map (fun pat => glob env (data_dir self) pat w) (patterns (set_order env)).
Proof. unfold discover. apply patterns_flat_map. Qed.

Lemma key_once (m : gmap string node) p :
  is_Some (m !! p) → count_occ String.string_dec (map fst (map_to_list m)) p = 1.
Proof.
  intros [n Hn].
  apply NoDup_count_occ'.
  - apply NoDup_ListNoDup. apply (NoDup_fst_map_to_list m).
  - apply in_map_iff. exists (p, n). split; [done|].
    apply list_elem_of_In. by apply elem_of_map_to_list.
Qed.

Lemma glob_count env dir pat w p :
  is_Some (fs w !! p) →
  count_occ String.string_dec (glob env dir pat w) p
  = if glob_matches env dir pat p then 1 else 0.
Proof.
  intros Hp. unfold glob. rewrite count_occ_filter_bool. by rewrite key_once.
Qed.

Lemma patterns_Permutation order1 order2 :
  order1 ≡ₚ order2 → patterns order1 ≡ₚ patterns order2.
Proof. intros H. unfold patterns. by apply Permutation_flat_map. Qed.

Lemma patterns_video_extensions_NoDup : NoDup (patterns video_extensions).
Proof. apply (bool_decide_unpack _). vm_compute. exact I. Qed.

Lemma patterns_video_extensions_suffix_free :
  suffix_free (patterns video_extensions) = true.
Proof. vm_compute. reflexivity. Qed.

(** C2, as amended.  On a platform whose glob compares names with case, an
    entry of the input directory whose name ends with one of the seven
    extensions, written entirely in lower case or entirely in upper case,
    occurs exactly once in the list of discovered videos, whatever the
    iteration order of the set of extensions. *)
Theorem discover_lower_upper_once env self w p n ext :
  case_sensitive env = true →
  set_order env ≡ₚ video_extensions →
  is_Some (fs w !! p) →
  Path.child_name (data_dir self) p = Some n →
  ext ∈ video_extensions →
  Str.endswith n ext = true ∨ Str.endswith n (Str.upper ext) = true →
  count_occ String.string_dec (discover env self w) p = 1.
Proof.
  intros Hcs Hperm Hp Hn Hext Hends.
  rewrite discover_eq.
  rewrite (count_occ_flat_map _ _ (Str.endswith n)).
  2:{ intros pat. rewrite (glob_count _ _ _ _ _ Hp).
      unfold glob_matches, name_matches. by rewrite Hn, Hcs. }
  rewrite (filter_length_Permutation _ _ _ (patterns_Permutation _ _ Hperm)).
  assert (∃ pat, pat ∈ patterns video_extensions ∧ Str.endswith n pat = true)
    as (pat & Hpat & Hhit).
  { destruct Hends as [H|H]; eexists; (split; [|exact H]);
      apply list_elem_of_In, in_flat_map; exists ext;
      (split; [by apply list_elem_of_In|]); simpl; auto. }
  apply (filter_length_unique _ _ pat); [|done..|].
  - apply patterns_video_extensions_NoDup.
  - intros pat' Hpat' Hhit'.
    destruct (endswith_comparable _ _ _ Hhit Hhit') as [H|H].
    + symmetry.
      eapply (suffix_free_spec _ _ _ patterns_video_extensions_suffix_free);
        [by apply list_elem_of_In..|done].
    + eapply (suffix_free_spec _ _ _ patterns_video_extensions_suffix_free);
        [by apply list_elem_of_In..|done].
Qed.

(** An instance: [clip.MP4] of the end-to-end scenario. *)
Lemma discover_lower_upper_once_witness :
  count_occ String.string_dec
    (discover Scenario.quiet Scenario.conv Scenario.lectures) "data/clip.MP4" = 1.
Proof.
  apply (discover_lower_upper_once Scenario.quiet Scenario.conv Scenario.lectures
           "data/clip.MP4" "clip.MP4" ".mp4").
  - reflexivity.
  - reflexivity.
  - vm_compute. eexists. reflexivity.
  - vm_compute. reflexivity.
  - apply (bool_decide_unpack _). vm_compute. exact I.
  - right. vm_compute. reflexivity.
Defined.

(** C2 as stated fails for a mixed-case extension: [intro.Mp4] matches
    [.mp4] without regard to case, exists in the input directory, and is not
    discovered. *)
Lemma mixed_case_not_discovered :
  is_Some (fs Scenario.mixed_case !! "data/intro.Mp4")
  ∧ Str.endswith (Str.lower "intro.Mp4") ".mp4" = true
  ∧ count_occ String.string_dec
      (discover Scenario.quiet Scenario.conv Scenario.mixed_case) "data/intro.Mp4" = 0
  ∧ discover Scenario.quiet Scenario.conv Scenario.mixed_case = [].
Proof.
  split; [vm_compute; eexists; reflexivity|].
  repeat split; vm_compute; reflexivity.
Qed.

(** Only the two spellings are searched for: whatever is discovered on a
    case-sensitive platform ends with an extension in lower case or in upper
    case. *)
Lemma discover_only_lower_upper env self w p :
  case_sensitive env = true →
  set_order env ≡ₚ video_extensions →
  p ∈ discover env self w →
  ∃ n ext, Path.child_name (data_dir self) p = Some n ∧ ext ∈ video_extensions ∧
           (Str.endswith n ext = true ∨ Str.endswith n (Str.upper ext) = true).
Proof.
  intros Hcs Hperm Hin. unfold discover in Hin.
  apply list_elem_of_In, in_flat_map in Hin as (ext & Hext & Hin).
  assert (ext ∈ video_extensions) as Hext'.
  { rewrite <- Hperm. by apply list_elem_of_In. }
  apply in_app_or in Hin.
  assert (∀ pat, In p (glob env (data_dir self) pat w) →
                 ∃ n, Path.child_name (data_dir self) p = Some n
                      ∧ Str.endswith n pat = true) as Hglob.
  { intros pat [_ Hm]%filter_In. unfold glob_matches, name_matches in Hm.
    rewrite Hcs in Hm. destruct (Path.child_name (data_dir self) p); [|done].
    by eexists. }
  destruct Hin as [(n & Hn & He)%Hglob|(n & Hn & He)%Hglob];
    exists n, ext; auto.
Qed.

(** Where glob ignores case, both patterns of an extension match the same
    entry and it is listed twice. *)
Example windows_lists_twice :
  count_occ String.string_dec
    (discover Scenario.windows Scenario.conv Scenario.lectures) "data/talk.mp4" = 2.
Proof. vm_compute. reflexivity. Qed.

(** ** C3: a failing step of one video *)

Lemma step_failure_steps env self video w0 cause w1 :
  step_failure env self video w0 cause w1 →
  steps env self video w0 = (Raise (Error cause), w1).
Proof.
  unfold steps. intros [H|wa Ha H|wa wb text Ha Hb H].
  - by apply bind_raise_eq.
  - rewrite (bind_ret_eq _ _ _ _ _ Ha). by apply bind_raise_eq.
  - rewrite (bind_ret_eq _ _ _ _ _ Ha), (bind_ret_eq _ _ _ _ _ Hb).
    by apply bind_raise_eq.
Qed.

Lemma process_video_result env self video w :
  fst (process_video env self video w)
  = match fst (cleanup env (audio_path_of self video)
                 (snd (before_cleanup env self video w))) with
    | Ret _ => fst (before_cleanup env self video w)
    | Raise e => Raise e
    end.
Proof. rewrite process_video_eq. by destruct (cleanup _ _ _) as [[[]|e] w2]. Qed.

Lemma process_video_world env self video w :
  snd (process_video env self video w)
  = snd (cleanup env (audio_path_of self video)
           (snd (before_cleanup env self video w))).
Proof. rewrite process_video_eq. by destruct (cleanup _ _ _) as [[[]|e] w2]. Qed.

(** C3, as amended.  When extraction, transcription or persistence of a
    video raises an exception, the [try:] body stops in the world the failing
    step left (the later steps are not attempted), the exception is caught in
    [process_video] and a line with the file name and the cause is printed.
    Whatever leaves [process_video] afterwards is what the cleanup returns or
    raises; when the cleanup does not raise, [process_video] returns and the
    loop goes on with the next video. *)
Theorem step_failure_contained env self video w cause w1 :
  step_failure env self video (emit (Print (header video)) w) cause w1 →
  let logged :=
    emit (Print ("❌ Ошибка при обработке " +:+ Path.name video +:+ ": " +:+ cause)) w1 in
  steps env self video (emit (Print (header video)) w) = (Raise (Error cause), w1)
  ∧ before_cleanup env self video w = (Ret tt, logged)
  ∧ fst (process_video env self video w)
    = fst (cleanup env (audio_path_of self video) logged)
  ∧ ∀ w2, cleanup env (audio_path_of self video) logged = (Ret tt, w2) →
          process_video env self video w = (Ret tt, w2)
          ∧ ∀ rest, for_each (video :: rest) (process_video env self) w
                    = for_each rest (process_video env self) w2.
Proof.
  intros Hfail logged.
  pose proof (step_failure_steps _ _ _ _ _ _ Hfail) as Hsteps.
  assert (before_cleanup env self video w = (Ret tt, logged)) as Hbefore.
  { unfold before_cleanup, attempt.
    by rewrite (try_except_error_eq _ _ _ _ _ Hsteps). }
  split; [done|]. split; [done|]. split.
  - rewrite process_video_result, Hbefore. simpl.
    by destruct (cleanup _ _ _) as [[[]|e] w2].
  - intros w2 Hclean.
    assert (process_video env self video w = (Ret tt, w2)) as Hpv.
    { rewrite process_video_eq, Hbefore. simpl. by rewrite Hclean. }
    split; [done|]. intros rest. by apply for_each_cons_ret.
Qed.

(** An instance: the first lecture cannot be decoded. *)
Lemma step_failure_contained_witness :
  fst (process_video Scenario.broken Scenario.conv "data/talk.mp4" Scenario.lectures)
  = Ret tt.
Proof.
  edestruct (step_failure_contained Scenario.broken Scenario.conv "data/talk.mp4"
               Scenario.lectures "MoviePy error: failed to read the first frame")
    as (_ & _ & _ & H).
  { apply extraction_failed. vm_compute. reflexivity. }
  edestruct H as [Hpv _].
  { vm_compute. reflexivity. }
  rewrite Hpv. reflexivity.
Defined.

(** C3 as stated fails: the decoder raises after leaving half of the audio
    file, the exception is caught, and then the deletion of that file fails.
    The exception of the deletion enters the batch driver and the second
    lecture is not processed. *)
Lemma failed_video_can_stop_the_batch :
  discover Scenario.broken_locked Scenario.conv Scenario.lectures
  = ["data/talk.mp4"; "data/clip.MP4"]
  ∧ (∃ w1, step_failure Scenario.broken_locked Scenario.conv "data/talk.mp4"
             (emit (Print (header "data/talk.mp4"))
                (emit (Print "Найдено видео файлов: 2") Scenario.lectures))
             "MoviePy error: failed to read the first frame" w1)
  ∧ fst (process_all_videos Scenario.broken_locked Scenario.conv Scenario.lectures)
    = Raise (Error "[WinError 32] The process cannot access the file")
  ∧ (Decode "data/clip.MP4" "output/clip_temp.wav"
     ∉ trace (snd (process_all_videos Scenario.broken_locked Scenario.conv
                     Scenario.lectures))).
Proof.
  split; [vm_compute; reflexivity|].
  split; [eexists; apply extraction_failed; vm_compute; reflexivity|].
  split; [vm_compute; reflexivity|].
  apply (bool_decide_unpack _). vm_compute. exact I.
Qed.

(** ** C4: the intermediate audio after processing *)

Lemma cleanup_artifact env audio w :
  fs (snd (cleanup env audio w)) !! audio = None
  ∨ ∃ f, unlink_result env w audio = Some f
         ∧ fst (cleanup env audio w) = Raise (exn_of_fault f)
         ∧ is_Some (fs w !! audio)
         ∧ fs (snd (cleanup env audio w)) !! audio = fs w !! audio.
Proof.
  destruct (fs w !! audio) as [n|] eqn:Hn.
  - destruct (unlink_result env w audio) as [f|] eqn:Hu.
    + right. exists f. rewrite (cleanup_failed env audio w f); [|by eexists|done].
      simpl. repeat split; [by eexists|]. by destruct f.
    + left. rewrite cleanup_deleted; [|by eexists|done]. simpl.
      apply lookup_delete_eq.
  - left. by rewrite cleanup_absent.
Qed.

(** C4, as amended.  On every exit path of [process_video] the intermediate
    audio does not exist afterwards, unless the [unlink] call of the cleanup
    raised: then the file is still there and the exception of [unlink] is
    what leaves [process_video].  In particular the file is gone whenever
    [process_video] returns. *)
Theorem artifact_gone_unless_deletion_fails env self video w :
  let audio := audio_path_of self video in
  let w1 := snd (before_cleanup env self video w) in
  let r := fst (process_video env self video w) in
  let w2 := snd (process_video env self video w) in
  (fs w2 !! audio = None
   ∨ ∃ f, unlink_result env w1 audio = Some f
          ∧ r = Raise (exn_of_fault f)
          ∧ is_Some (fs w1 !! audio)
          ∧ fs w2 !! audio = fs w1 !! audio)
  ∧ (r = Ret tt → fs w2 !! audio = None).
Proof.
  intros audio w1 r w2.
  assert (fs w2 !! audio = None
          ∨ ∃ f, unlink_result env w1 audio = Some f
                 ∧ r = Raise (exn_of_fault f)
                 ∧ is_Some (fs w1 !! audio)
                 ∧ fs w2 !! audio = fs w1 !! audio) as H.
  { subst r w2. rewrite process_video_result, process_video_world. fold w1 audio.
    destruct (cleanup_artifact env audio w1) as [H|(f & Hu & Hr & Hs & Hfs)];
      [by left|right].
    exists f. by rewrite Hr. }
  split; [done|]. intros Hr.
  destruct H as [H|(f & _ & Hf & _)]; [done|]. by rewrite Hr in Hf.
Qed.

(** An instance: a lecture that is transcribed without incident. *)
Lemma artifact_gone_unless_deletion_fails_witness :
  fs (snd (process_video Scenario.quiet Scenario.conv "data/talk.mp4"
             Scenario.lectures)) !! "output/talk_temp.wav" = None.
Proof.
  apply (proj2 (artifact_gone_unless_deletion_fails Scenario.quiet Scenario.conv
                  "data/talk.mp4" Scenario.lectures)).
  vm_compute. reflexivity.
Defined.

(** C4 as stated fails on the success path: all three steps succeed, the
    deletion of the temporary file is refused, and the file outlives the
    processing of its video. *)
Lemma artifact_survives_failed_deletion :
  fst (before_cleanup Scenario.locked Scenario.conv "data/talk.mp4" Scenario.lectures)
  = Ret tt
  ∧ (Print "✅ Видео talk.mp4 успешно обработано!"
     ∈ trace (snd (process_video Scenario.locked Scenario.conv "data/talk.mp4"
                     Scenario.lectures)))
  ∧ fs (snd (process_video Scenario.locked Scenario.conv "data/talk.mp4"
               Scenario.lectures)) !! "output/talk_temp.wav"
    = Some (File "RIFF").
Proof.
  split; [vm_compute; reflexivity|].
  split; [apply (bool_decide_unpack _); vm_compute; exact I|].
  vm_compute. reflexivity.
Qed.

(** ** C5: no transcript after an early failure *)

Lemma early_failure_step_failure env self video w0 cause w1 :
  early_failure env self video w0 cause w1 →
  step_failure env self video w0 cause w1.
Proof.
  intros [H|wa Ha H]; [by apply extraction_failed|by eapply transcription_failed].
Qed.

Lemma failure_logged env self video w cause w1 :
  step_failure env self video (emit (Print (header video)) w) cause w1 →
  before_cleanup env self video w
  = (Ret tt,
     emit (Print ("❌ Ошибка при обработке " +:+ Path.name video +:+ ": " +:+ cause)) w1).
Proof.
  intros Hf. pose proof (step_failure_steps _ _ _ _ _ _ Hf) as Hsteps.
  unfold before_cleanup, attempt.
  by rewrite (try_except_error_eq _ _ _ _ _ Hsteps).
Qed.

Lemma text_path_not_audio_path self video :
  text_path_of self video ≠ audio_path_of self video.
Proof.
  unfold text_path_of, audio_path_of, Path.join. intros H.
  do 3 apply String.app_inj in H. discriminate H.
Qed.

Lemma not_write_print line : not_write (Print line).
Proof. by intros p text. Qed.

Lemma early_failure_frame env self video w0 cause w1 :
  early_failure env self video w0 cause w1 →
  frame (eq (audio_path_of self video)) not_write w0 w1.
Proof.
  intros [H|wa Ha H].
  - pose proof (extract_audio_keeps env (eq (audio_path_of self video)) not_write
                  not_write_print ltac:(done) video (audio_path_of self video)
                  eq_refl ltac:(done) w0) as Hk.
    by rewrite H in Hk.
  - pose proof (extract_audio_keeps env (eq (audio_path_of self video)) not_write
                  not_write_print ltac:(done) video (audio_path_of self video)
                  eq_refl ltac:(done) w0) as Hk.
    rewrite Ha in Hk.
    pose proof (transcribe_audio_keeps env self (eq (audio_path_of self video))
                  not_write not_write_print ltac:(done) (audio_path_of self video)
                  ltac:(done) wa) as Hk'.
    rewrite H in Hk'. by eapply frame_trans.
Qed.

(** C5, as amended.  When extraction or transcription of a video raises an
    exception, whatever is at [output/<stem>.txt] is left as it was and no
    file is opened for writing (the persist step is not reached); the cleanup
    still runs, and the intermediate audio is gone afterwards unless its
    deletion raised. *)
Theorem early_failure_leaves_no_transcript env self video w cause w1 :
  early_failure env self video (emit (Print (header video)) w) cause w1 →
  let audio := audio_path_of self video in
  let logged :=
    emit (Print ("❌ Ошибка при обработке " +:+ Path.name video +:+ ": " +:+ cause)) w1 in
  let w2 := snd (process_video env self video w) in
  fs w2 !! text_path_of self video = fs w !! text_path_of self video
  ∧ (∃ evs, trace w2 = trace w ++ evs ∧ Forall not_write evs)
  ∧ (fs w2 !! audio = None
     ∨ ∃ f, unlink_result env logged audio = Some f
            ∧ fst (process_video env self video w) = Raise (exn_of_fault f)).
Proof.
  intros Hearly audio logged w2.
  pose proof (failure_logged _ _ _ _ _ _ (early_failure_step_failure _ _ _ _ _ _ Hearly))
    as Hbefore. fold logged in Hbefore.
  assert (w2 = snd (cleanup env audio logged)) as Hw2.
  { subst w2. by rewrite process_video_world, Hbefore. }
  assert (frame (eq audio) not_write w w2) as [Hfs Htrace].
  { eapply frame_trans; [apply frame_emit, (not_write_print (header video))|].
    eapply frame_trans; [exact (early_failure_frame _ _ _ _ _ _ Hearly)|].
    eapply frame_trans; [apply frame_emit, not_write_print|].
    rewrite Hw2. by apply cleanup_keeps. }
  split; [|split; [done|]].
  - apply Hfs. intros Heq. by apply (text_path_not_audio_path self video).
  - rewrite Hw2, process_video_result, Hbefore. simpl. fold audio.
    destruct (cleanup_artifact env audio logged) as [H|(f & Hu & Hr & _)];
      [by left|right].
    exists f. by rewrite Hr.
Qed.

(** An instance: the recognizer runs out of memory on a re-run; the old
    transcript stays as it was. *)
Lemma early_failure_leaves_no_transcript_witness :
  fs (snd (process_video Scenario.mute Scenario.conv "data/talk.mp4" Scenario.rerun))
    !! "output/talk.txt" = Some (File "old text").
Proof.
  edestruct (early_failure_leaves_no_transcript Scenario.mute Scenario.conv
               "data/talk.mp4" Scenario.rerun "CUDA out of memory") as [H _].
  { eapply early_transcription; vm_compute; reflexivity. }
  etransitivity; [exact H|]. vm_compute. reflexivity.
Defined.

(** C5 as stated fails in its last part: the recognizer raises, the cleanup
    runs, the deletion of the intermediate audio is refused and the file is
    still there afterwards. *)
Lemma early_failure_audio_not_deleted :
  (∃ w1, early_failure Scenario.mute_locked Scenario.conv "data/talk.mp4"
           (emit (Print (header "data/talk.mp4")) Scenario.lectures)
           "CUDA out of memory" w1)
  ∧ fs (snd (process_video Scenario.mute_locked Scenario.conv "data/talk.mp4"
               Scenario.lectures)) !! "output/talk_temp.wav"
    = Some (File "RIFF").
Proof.
  split; [|vm_compute; reflexivity].
  eexists. eapply early_transcription; vm_compute; reflexivity.
Qed.

(** ** C6: exit codes *)

Lemma not_exit_fault f : not_exit (exn_of_fault f).
Proof. intros code. by destruct f. Qed.

Lemma not_exit_Error cause : not_exit (Error cause).
Proof. by intros code. Qed.

Ltac raising :=
  repeat first
    [ apply raises_ret | apply raises_print | apply raises_path_exists
    | apply raises_raise, not_exit_Error
    | apply raises_bind | apply raises_except_Exception
    | apply raises_try_finally | apply raises_for_each
    | apply raises_load_model, not_exit_fault
    | apply raises_mkdir, not_exit_fault
    | apply raises_decode, not_exit_fault
    | apply raises_recognize, not_exit_fault
    | apply raises_write_text, not_exit_fault
    | apply raises_unlink, not_exit_fault
    | match goal with
      | |- ∀ _, _ => intro
      | |- raises_only _ (if ?b then _ else _) => destruct b
      end ].

Lemma init_not_exit env model_name : raises_only not_exit (__init__ env model_name).
Proof. unfold __init__. raising. Qed.

Lemma process_video_not_exit env self video :
  raises_only not_exit (process_video env self video).
Proof.
  unfold process_video, attempt, steps, extract_audio, transcribe_audio, save_text,
    report_failure, cleanup.
  raising.
Qed.

Lemma process_all_videos_not_exit env self :
  raises_only not_exit (process_all_videos env self).
Proof.
  intros w e. unfold process_all_videos.
  destruct (discover env self w) as [|video rest].
  - apply (raises_bind not_exit); [apply raises_print|]. intros _. apply raises_print.
  - apply (raises_bind not_exit); [apply raises_print|]. intros _.
    apply raises_bind; [|intros _; apply raises_print].
    apply raises_for_each. intros x. apply process_video_not_exit.
Qed.

Lemma file_not_found_exit env args w conv w1 f :
  __init__ env (arg_model args) w = (Ret conv, w1) →
  arg_file args = Some f → f ≠ "" → fs w1 !! Path.of_string f = None →
  main_body env args w
  = (Raise (SystemExit 1),
     emit (Print ("❌ Файл не найден: " +:+ Path.of_string f)) w1).
Proof.
  intros Hi Hf Hne Hex. unfold main_body.
  rewrite (bind_ret_eq _ _ _ _ _ Hi). unfold dispatch. rewrite Hf.
  assert (String.eqb f "" = false) as -> by (by apply String.eqb_neq).
  cbv zeta. unfold bind at 1, path_exists. rewrite bool_decide_eq_false_2; [done|].
  rewrite Hex. by intros [? [=]].
Qed.

Lemma init_failure_reaches_top env args w e w1 :
  __init__ env (arg_model args) w = (Raise e, w1) →
  main_body env args w = (Raise e, w1).
Proof. intros Hi. unfold main_body. by apply bind_raise_eq. Qed.

Lemma main_body_exit env args w code w' :
  main_body env args w = (Raise (SystemExit code), w') →
  file_not_found env args w ∧ code = 1%Z.
Proof.
  intros H.
  destruct (__init__ env (arg_model args) w) as [[conv|e] w1] eqn:Hi.
  - assert (arg_file args = None ∨ arg_file args = Some ""
            ∨ ∃ f, arg_file args = Some f ∧ f ≠ "") as [Hf|[Hf|(f & Hf & Hne)]].
    { destruct (arg_file args) as [f|]; [|by left]. right.
      destruct (String.eqb_spec f ""); [left; congruence | right; by exists f]. }
    + rewrite (main_body_batch _ _ _ _ _ Hi (or_introl Hf)) in H.
      destruct (process_all_videos_not_exit env conv w1 (SystemExit code)
                  ltac:(by rewrite H) code eq_refl).
    + rewrite (main_body_batch _ _ _ _ _ Hi (or_intror Hf)) in H.
      destruct (process_all_videos_not_exit env conv w1 (SystemExit code)
                  ltac:(by rewrite H) code eq_refl).
    + destruct (fs w1 !! Path.of_string f) as [n|] eqn:Hex.
      * rewrite (main_body_file _ _ _ _ _ _ Hi Hf Hne ltac:(by eexists)) in H.
        destruct (process_video_not_exit env conv (Path.of_string f) w1
                    (SystemExit code)
                    ltac:(by rewrite H) code eq_refl).
      * rewrite (file_not_found_exit _ _ _ _ _ _ Hi Hf Hne Hex) in H.
        injection H as <- _. split; [|done]. by exists conv, w1, f.
  - rewrite (init_failure_reaches_top _ _ _ _ _ Hi) in H. injection H as -> _.
    destruct (init_not_exit env (arg_model args) w (SystemExit code)
                ltac:(by rewrite Hi) code eq_refl).
Qed.

(** C6.  The exit code is 0 or 1.  It is 1 exactly when the file given with
    [--file] is found missing, when the initialization raises an exception,
    or when an exception reaches the top-level handler; so it is 0 whenever
    [main] runs to its end.  When the scan of the input directory finds
    nothing, the two lines of the warning, the second listing the supported
    extensions, are all that happens after the initialization, and the exit
    code is 0. *)
Theorem exit_code_cases env args w :
  (fst (run env args w) = 0%Z ∨ fst (run env args w) = 1%Z)
  ∧ (fst (run env args w) = 1%Z
     ↔ file_not_found env args w ∨ init_fails env args w
       ∨ error_reaches_top env args w)
  ∧ (∀ w1, main_body env args w = (Ret tt, w1) → run env args w = (0%Z, w1))
  ∧ (∀ conv w1,
        __init__ env (arg_model args) w = (Ret conv, w1) →
        arg_file args = None ∨ arg_file args = Some "" →
        discover env conv w1 = [] →
        run env args w
        = (0%Z,
           emit (Print ("Поддерживаемые форматы: "
                        +:+ String.concat ", " (set_order env)))
             (emit (Print ("❌ Видео файлы не найдены в папке " +:+ data_dir conv))
                w1))).
Proof.
  destruct (main_body env args w) as [[[]|[cause| |code]] w'] eqn:Hbody.
  - rewrite (run_ret _ _ _ _ Hbody). simpl.
    split; [by left|]. split; [|split].
    + split; [done|]. intros [(conv & w1 & f & Hi & Hf & Hne & Hex)|[(c & w1 & Hi)|(c & w1 & H)]].
      * by rewrite (file_not_found_exit _ _ _ _ _ _ Hi Hf Hne Hex) in Hbody.
      * by rewrite (init_failure_reaches_top _ _ _ _ _ Hi) in Hbody.
      * congruence.
    + by intros w1 [= ->].
    + intros conv w1 Hi Hf Hd. rewrite (main_body_batch _ _ _ _ _ Hi Hf) in Hbody.
      unfold process_all_videos in Hbody. rewrite Hd in Hbody.
      by injection Hbody as <-.
  - rewrite (run_error _ _ _ _ _ Hbody). simpl.
    split; [by right|]. split; [|split].
    + split; [|done]. intros _. right. right. by exists cause, w'.
    + done.
    + intros conv w1 Hi Hf Hd. rewrite (main_body_batch _ _ _ _ _ Hi Hf) in Hbody.
      unfold process_all_videos in Hbody. by rewrite Hd in Hbody.
  - rewrite (run_interrupt _ _ _ _ Hbody). simpl.
    split; [by left|]. split; [|split].
    + split; [done|]. intros [(conv & w1 & f & Hi & Hf & Hne & Hex)|[(c & w1 & Hi)|(c & w1 & H)]].
      * by rewrite (file_not_found_exit _ _ _ _ _ _ Hi Hf Hne Hex) in Hbody.
      * by rewrite (init_failure_reaches_top _ _ _ _ _ Hi) in Hbody.
      * congruence.
    + done.
    + intros conv w1 Hi Hf Hd. rewrite (main_body_batch _ _ _ _ _ Hi Hf) in Hbody.
      unfold process_all_videos in Hbody. by rewrite Hd in Hbody.
  - destruct (main_body_exit _ _ _ _ _ Hbody) as [Hnf ->].
    rewrite (run_exit _ _ _ _ _ Hbody). simpl.
    split; [by right|]. split; [|split].
    + split; [|done]. intros _. by left.
    + done.
    + intros conv w1 Hi Hf Hd. rewrite (main_body_batch _ _ _ _ _ Hi Hf) in Hbody.
      unfold process_all_videos in Hbody. by rewrite Hd in Hbody.
Qed.

(** An instance: the input directory is empty. *)
Lemma exit_code_cases_witness :
  run Scenario.quiet Scenario.batch Scenario.empty_dir
  = (0%Z,
     emit (Print ("Поддерживаемые форматы: "
                  +:+ String.concat ", " (set_order Scenario.quiet)))
       (emit (Print ("❌ Видео файлы не найдены в папке "
                     +:+ data_dir Scenario.conv))
          (snd (__init__ Scenario.quiet "base" Scenario.empty_dir)))).
Proof.
  apply (proj2 (proj2 (proj2 (exit_code_cases Scenario.quiet Scenario.batch
                                Scenario.empty_dir)))).
  - vm_compute. reflexivity.
  - left. reflexivity.
  - vm_compute. reflexivity.
Defined.

(** The end-to-end scenarios of the specification. *)
Example two_lectures_exit_0 :
  fst (run Scenario.quiet Scenario.batch Scenario.lectures) = 0%Z
  ∧ (map fst (map_to_list (fs (snd (run Scenario.quiet Scenario.batch
                                     Scenario.lectures)))))
    ≡ₚ ["data"; "output"; "data/talk.mp4"; "data/clip.MP4"; "data/notes.txt";
        "output/talk.txt"; "output/clip.txt"].
Proof.
  split; [vm_compute; reflexivity|].
  apply (bool_decide_unpack _). vm_compute. exact I.
Qed.

Example missing_file_exit_1 :
  run Scenario.quiet (Scenario.single "missing.mp4") Scenario.empty_dir
  = (1%Z, emit (Print "❌ Файл не найден: missing.mp4")
            (snd (__init__ Scenario.quiet "base" Scenario.empty_dir))).
Proof. vm_compute. reflexivity. Qed.

Example model_load_failure_exit_1 :
  fst (run Scenario.no_model Scenario.batch Scenario.lectures) = 1%Z
  ∧ init_fails Scenario.no_model Scenario.batch Scenario.lectures.
Proof.
  split; [vm_compute; reflexivity|].
  eexists _, _. vm_compute. reflexivity.
Qed.

(** ** C7: the user's interrupt *)

Ltac passing :=
  repeat first
    [ apply passes_ret | apply passes_print | apply passes_path_exists
    | by apply passes_raise
    | apply passes_bind | apply passes_except_Exception | apply passes_for_each
    | apply passes_load_model | apply passes_mkdir | apply passes_decode
    | apply passes_recognize | apply passes_write_text | apply passes_unlink
    | match goal with
      | |- ∀ _, _ => intro
      | |- passes_interrupt (if ?b then _ else _) => destruct b
      end ].

Lemma init_passes env model_name : passes_interrupt (__init__ env model_name).
Proof. unfold __init__. passing. Qed.

Lemma attempt_passes env self video : passes_interrupt (attempt env self video).
Proof.
  unfold attempt, steps, extract_audio, transcribe_audio, save_text, report_failure.
  passing.
Qed.

Lemma cleanup_passes env audio : passes_interrupt (cleanup env audio).
Proof. unfold cleanup. passing. Qed.

Lemma cleanup_after_interrupt env audio w :
  deletion_holds_after_interrupt env → interrupted w →
  interrupted (snd (cleanup env audio w))
  ∧ (fst (cleanup env audio w) = Ret tt
     ∨ fst (cleanup env audio w) = Raise KeyboardInterrupt).
Proof.
  intros Hdel Hw.
  destruct (fs w !! audio) as [n|] eqn:Hn.
  - destruct (unlink_result env w audio) as [[cause|]|] eqn:Hu.
    + by destruct (Hdel w audio cause Hw).
    + rewrite (cleanup_failed env audio w Interrupt); [|by eexists|done].
      simpl. split; [|by right].
      rewrite !interrupted_emit. auto.
    + rewrite cleanup_deleted; [|by eexists|done]. simpl. split; [|by left].
      rewrite interrupted_emit, interrupted_set_fs, interrupted_emit. auto.
  - rewrite cleanup_absent by done. simpl. auto.
Qed.

Lemma process_video_passes env self video :
  deletion_holds_after_interrupt env →
  passes_interrupt (process_video env self video).
Proof.
  intros Hdel. unfold process_video.
  apply passes_bind; [apply passes_print|]. intros _.
  apply passes_try_finally.
  - apply attempt_passes.
  - apply cleanup_passes.
  - intros w Hw. by apply cleanup_after_interrupt.
Qed.

Lemma process_all_videos_passes env self :
  deletion_holds_after_interrupt env →
  passes_interrupt (process_all_videos env self).
Proof.
  intros Hdel w Hw. unfold process_all_videos.
  destruct (discover env self w) as [|video rest].
  - revert w Hw. passing.
  - revert w Hw. apply passes_bind; [apply passes_print|]. intros _.
    apply passes_bind; [|intros _; apply passes_print].
    apply passes_for_each. intros x. by apply process_video_passes.
Qed.

Lemma main_body_passes env args :
  deletion_holds_after_interrupt env → passes_interrupt (main_body env args).
Proof.
  intros Hdel. unfold main_body.
  apply passes_bind; [apply init_passes|]. intros conv. unfold dispatch.
  destruct (arg_file args) as [f|]; [|by apply process_all_videos_passes].
  destruct (String.eqb f ""); [by apply process_all_videos_passes|].
  apply passes_bind; [apply passes_path_exists|]. intros [|]; simpl.
  - by apply process_video_passes.
  - unfold sys_exit. passing.
Qed.

(** C7, as amended.  Provided no deletion of the cleanup raises an exception
    once the interrupt is on its way, an interrupt that arrives during any
    blocking call of the run (loading the model, creating the directories,
    decoding, recognizing, writing, deleting) reaches the outermost handler
    as [KeyboardInterrupt]: the notice is the last line printed and the exit
    code is 0. *)
Theorem interrupt_exits_cleanly env args w :
  deletion_holds_after_interrupt env →
  ¬ interrupted w →
  interrupted (snd (run env args w)) →
  ∃ w1, main_body env args w = (Raise KeyboardInterrupt, w1)
        ∧ run env args w
          = (0%Z, emit (Print (Str.nl +:+ "⚠️ Обработка прервана пользователем")) w1).
Proof.
  intros Hdel Hw Hint.
  pose proof (main_body_passes env args Hdel w Hw) as Hpass.
  destruct (main_body env args w) as [[[]|[cause| |code]] w'] eqn:Hbody;
    simpl in Hpass.
  - rewrite (run_ret _ _ _ _ Hbody) in Hint. simpl in Hint.
    by apply Hpass in Hint.
  - rewrite (run_error _ _ _ _ _ Hbody) in Hint. simpl in Hint.
    apply interrupted_emit in Hint as [Hint|?]; [|done].
    by apply Hpass in Hint.
  - exists w'. split; [done|]. by apply run_interrupt.
  - rewrite (run_exit _ _ _ _ _ Hbody) in Hint. simpl in Hint.
    by apply Hpass in Hint.
Qed.

(** An instance: the interrupt arrives while the first lecture is being
    recognized. *)
Lemma interrupt_exits_cleanly_witness :
  fst (run Scenario.stopped Scenario.batch Scenario.lectures) = 0%Z.
Proof.
  destruct (interrupt_exits_cleanly Scenario.stopped Scenario.batch Scenario.lectures)
    as (w1 & _ & H).
  - intros w p cause _. discriminate.
  - apply (bool_decide_unpack _). vm_compute. exact I.
  - apply (bool_decide_unpack _). vm_compute. exact I.
  - rewrite H. reflexivity.
Defined.

(** C7 as stated fails: the interrupt arrives while the first lecture is
    being recognized, the cleanup then fails to delete the temporary file, and
    the exception of the deletion replaces the interrupt: the notice is not
    printed and the exit code is 1. *)
Lemma interrupt_replaced_by_deletion_failure :
  ¬ interrupted Scenario.lectures
  ∧ interrupted (snd (run Scenario.stopped_locked Scenario.batch Scenario.lectures))
  ∧ fst (run Scenario.stopped_locked Scenario.batch Scenario.lectures) = 1%Z
  ∧ (Print (Str.nl +:+ "⚠️ Обработка прервана пользователем")
     ∉ trace (snd (run Scenario.stopped_locked Scenario.batch Scenario.lectures))).
Proof.
  split; [apply (bool_decide_unpack _); vm_compute; exact I|].
  split; [apply (bool_decide_unpack _); vm_compute; exact I|].
  split; [vm_compute; reflexivity|].
  apply (bool_decide_unpack _). vm_compute. exact I.
Qed.

(** ** C8: the paths and the content of the transcript *)

Lemma transcribe_audio_ret env self audio w text w1 :
  transcribe_audio env self audio w = (Ret text, w1) →
  transcribe_result env (emit (Print ("Распознаем речь из " +:+ Path.name audio +:+ "...")) w)
    (model self) audio = inl text.
Proof.
  unfold transcribe_audio. rewrite print_then. unfold try_except, recognize.
  destruct (transcribe_result env _ (model self) audio) as [t|[cause|]];
    simpl; cbv [bind print raise]; intros [=]; congruence.
Qed.

Lemma save_text_ret env text p w w1 :
  save_text env text p w = (Ret tt, w1) →
  w1 = emit (Print ("Текст сохранен: " +:+ p))
         (set_fs (insert p (File text)) (emit (OpenWrite p text) w)).
Proof.
  unfold save_text, try_except, bind, write_text.
  destruct (write_result env w p text) as [|[part|] [cause|]];
    simpl; cbv [bind print raise]; intros [=]; congruence.
Qed.

Lemma steps_ret env self video w0 wa wb wc text :
  extract_audio env video (audio_path_of self video) w0 = (Ret tt, wa) →
  transcribe_audio env self (audio_path_of self video) wa = (Ret text, wb) →
  save_text env text (text_path_of self video) wb = (Ret tt, wc) →
  steps env self video w0
  = (Ret tt, emit (Print ("✅ Видео " +:+ Path.name video +:+ " успешно обработано!")) wc).
Proof.
  intros Ha Hb Hc. unfold steps.
  rewrite (bind_ret_eq _ _ _ _ _ Ha), (bind_ret_eq _ _ _ _ _ Hb).
  by rewrite (bind_ret_eq _ _ _ _ _ Hc).
Qed.

Lemma init_eq env model_name w :
  __init__ env model_name w
  = (mdl <~ load_model env (model_source model_name w) ;;
     mkdir_exist_ok env "data" ;;;
     mkdir_exist_ok env "output" ;;;
     ret {| model := mdl; data_dir := "data"; output_dir := "output" |})
      (after_banner model_name w).
Proof.
  unfold __init__, after_banner, model_source. rewrite print_then.
  unfold bind at 1, path_exists. simpl.
  by destruct (bool_decide _).
Qed.

Lemma init_dirs env model_name w self w1 :
  __init__ env model_name w = (Ret self, w1) →
  data_dir self = "data" ∧ output_dir self = "output".
Proof.
  rewrite init_eq. unfold bind, load_model.
  destruct (load_model_result env _ _); [by intros [=]|].
  destruct (mkdir_exist_ok env "data" _) as [[[]|e] wa]; [|by intros [=]].
  destruct (mkdir_exist_ok env "output" _) as [[[]|e] wb]; [|by intros [=]].
  by intros [= <- _].
Qed.

(** C8.  When the three steps of a video succeed, the decoder was given
    [output/<stem>_temp.wav], the transcript is at [output/<stem>.txt], both
    paths depend on the base name of the video only, the text handed to the
    file is the text the recognizer returned, unchanged, and after
    [process_video] the file holds exactly that text, whatever was at that
    path before. *)
Theorem transcript_written_verbatim env self video w wa wb wc text :
  output_dir self = "output" →
  extract_audio env video (audio_path_of self video) (emit (Print (header video)) w)
    = (Ret tt, wa) →
  transcribe_audio env self (audio_path_of self video) wa = (Ret text, wb) →
  save_text env text (text_path_of self video) wb = (Ret tt, wc) →
  audio_path_of self video = "output/" +:+ Path.stem video +:+ "_temp.wav"
  ∧ text_path_of self video = "output/" +:+ Path.stem video +:+ ".txt"
  ∧ (∀ video', Path.name video' = Path.name video →
               audio_path_of self video' = audio_path_of self video
               ∧ text_path_of self video' = text_path_of self video)
  ∧ transcribe_result env
      (emit (Print ("Распознаем речь из "
                    +:+ Path.name (audio_path_of self video) +:+ "...")) wa)
      (model self) (audio_path_of self video) = inl text
  ∧ OpenWrite (text_path_of self video) text ∈ trace wc
  ∧ fs (snd (process_video env self video w)) !! text_path_of self video
    = Some (File text).
Proof.
  intros Hout Ha Hb Hc.
  split; [unfold audio_path_of, Path.join; by rewrite Hout|].
  split; [unfold text_path_of, Path.join; by rewrite Hout|].
  split.
  { intros video' Hname. unfold audio_path_of, text_path_of, Path.stem.
    by rewrite Hname. }
  split; [by eapply transcribe_audio_ret|].
  pose proof (save_text_ret _ _ _ _ _ Hc) as Hwc.
  split.
  { rewrite Hwc. simpl. rewrite !elem_of_app, !list_elem_of_singleton. auto. }
  rewrite process_video_world.
  unfold before_cleanup, attempt.
  rewrite (try_except_ret_eq _ _ _ _ _ (steps_ret _ _ _ _ _ _ _ _ Ha Hb Hc)). simpl.
  destruct (cleanup_keeps env (eq (audio_path_of self video)) anything
              ltac:(done) I (audio_path_of self video) eq_refl I
              (emit (Print ("✅ Видео " +:+ Path.name video +:+ " успешно обработано!")) wc))
    as [Hfs _].
  rewrite Hfs by (intros Heq; by apply (text_path_not_audio_path self video)).
  rewrite Hwc. simpl. apply lookup_insert_eq.
Qed.

(** An instance: a re-run over an old transcript. *)
Lemma transcript_written_verbatim_witness :
  fs (snd (process_video Scenario.quiet Scenario.conv "data/talk.mp4" Scenario.rerun))
    !! "output/talk.txt" = Some (File " Добрый день. ").
Proof.
  edestruct (transcript_written_verbatim Scenario.quiet Scenario.conv "data/talk.mp4"
               Scenario.rerun) as (_ & _ & _ & _ & _ & H).
  - reflexivity.
  - vm_compute. reflexivity.
  - vm_compute. reflexivity.
  - vm_compute. reflexivity.
  - exact H.
Defined.

(** ** C9: loading the model *)

Ltac framing :=
  repeat first
    [ apply keeps_ret | apply keeps_raise | apply keeps_path_exists
    | apply keeps_print | apply keeps_bind | apply keeps_except_Exception
    | apply keeps_try_finally | apply keeps_for_each
    | apply keeps_decode | apply keeps_recognize | apply keeps_write_text
    | apply keeps_unlink | apply keeps_mkdir
    | done
    | match goal with
      | |- ∀ _, _ => intro
      | |- keeps _ _ (if ?b then _ else _) => destruct b
      end ].

Lemma frame_try_except {A} touch ok (body : M A) handler w0 w :
  frame touch ok w0 (snd (body w)) →
  (∀ e h, handler e = Some h → keeps touch ok h) →
  frame touch ok w0 (snd (try_except body handler w)).
Proof.
  intros Hb Hh. unfold try_except.
  destruct (body w) as [[a|e] w1]; simpl in *; [done|].
  destruct (handler e) as [h|] eqn:He; [|done].
  eapply frame_trans; [done | by eapply Hh].
Qed.

Section WholeRun.

Variable env : Env.
Variable self : VideoToTextConverter.
Variable ok : event → Prop.
Hypothesis ok_print : ∀ line, ok (Print line).
Hypothesis ok_sigint : ok Sigint.
Hypothesis ok_mkdir : ∀ p, ok (Mkdir p).
Hypothesis ok_decode : ∀ video audio, ok (Decode video audio).
Hypothesis ok_transcribe : ∀ audio, ok (Transcribe (model self) audio).
Hypothesis ok_write : ∀ p text, ok (OpenWrite p text).
Hypothesis ok_unlink : ∀ p, ok (Unlink p).

Lemma process_video_keeps video :
  keeps anywhere ok (process_video env self video).
Proof.
  unfold process_video, attempt, steps, extract_audio, transcribe_audio, save_text,
    report_failure, cleanup.
  framing.
Qed.

Lemma process_all_videos_keeps : keeps anywhere ok (process_all_videos env self).
Proof.
  intros w. unfold process_all_videos.
  destruct (discover env self w) as [|video rest].
  - revert w. framing.
  - revert w. apply keeps_bind; [by apply keeps_print|]. intros _.
    apply keeps_bind; [|intros _; by apply keeps_print].
    apply keeps_for_each. intros x. apply process_video_keeps.
Qed.

Lemma dispatch_keeps args : keeps anywhere ok (dispatch env args self).
Proof.
  unfold dispatch.
  destruct (arg_file args) as [f|]; [|apply process_all_videos_keeps].
  destruct (String.eqb f ""); [apply process_all_videos_keeps|].
  apply keeps_bind; [apply keeps_path_exists|]. intros [|]; simpl.
  - apply process_video_keeps.
  - unfold sys_exit. framing.
Qed.

Lemma main_handlers_keep e h :
  main_handlers e = Some h → keeps anywhere ok h.
Proof.
  destruct e as [cause| |code]; simpl; intros [= <-]; unfold sys_exit; framing.
Qed.

End WholeRun.

Lemma uses_model_print source line : uses_model source (Print line).
Proof. split; [by intros s|by intros mdl audio]. Qed.

Ltac model_event :=
  try done; intros;
  first [ exact I
        | split; [by intros ? | intros ? ? Hev; by inversion Hev] ].

Lemma main_body_eq env args w :
  main_body env args w
  = (mdl <~ load_model env (model_source (arg_model args) w) ;;
     mkdir_exist_ok env "data" ;;;
     mkdir_exist_ok env "output" ;;;
     dispatch env args {| model := mdl; data_dir := "data"; output_dir := "output" |})
      (after_banner (arg_model args) w).
Proof.
  unfold main_body. unfold bind at 1. rewrite init_eq.
  unfold bind.
  destruct (load_model env _ _) as [[mdl|e] w1]; [|done].
  destruct (mkdir_exist_ok env "data" w1) as [[[]|e] w2]; [|done].
  by destruct (mkdir_exist_ok env "output" w2) as [[[]|e] w3].
Qed.

(** C9.  Whatever the model name and however the run ends, the trace of the
    run is: lines printed, then one call of [load_model], given
    [whisper/<model>.pt] when that file exists and the name of the model
    otherwise, then events among which there is no other call of
    [load_model] and in which every call of the recognizer uses the model
    loaded by that one call.  The model is thus resolved once, before any
    video is touched. *)
Theorem model_loaded_once env args w :
  let source := model_source (arg_model args) w in
  source = (if bool_decide (is_Some (fs w !! ("whisper/" +:+ arg_model args +:+ ".pt")))
            then "whisper/" +:+ arg_model args +:+ ".pt"
            else arg_model args)
  ∧ ∃ pre post,
      trace (snd (run env args w)) = trace w ++ pre ++ LoadModel source :: post
      ∧ Forall is_print pre
      ∧ Forall (uses_model source) post.
Proof.
  intros source. split; [done|].
  set (w_load := emit (LoadModel source) (after_banner (arg_model args) w)).
  assert (∃ pre, trace w_load = trace w ++ pre ++ [LoadModel source]
                 ∧ Forall is_print pre) as (pre & Hpre & Hprints).
  { unfold w_load, after_banner.
    destruct (bool_decide _);
      [exists [Print ("Загружаем модель Whisper: " +:+ arg_model args +:+ "...");
               Print ("Найдена локальная модель: "
                      +:+ "whisper" // (arg_model args +:+ ".pt"))]
      |exists [Print ("Загружаем модель Whisper: " +:+ arg_model args +:+ "...");
               Print ("Локальная модель не найдена в "
                      +:+ "whisper" // (arg_model args +:+ ".pt"));
               Print "Загружаем модель из интернета..."]];
      simpl; rewrite <- ?app_assoc; simpl;
      (split; [reflexivity|]); repeat constructor; by eexists. }
  assert (frame anywhere (uses_model source) w_load (snd (run env args w)))
    as [_ (post & Hpost & Hok)].
  { assert (snd (run env args w) = snd (main env args w)) as ->.
    { unfold run. by destruct (main env args w). }
    unfold main. apply frame_try_except.
    2:{ intros e h. apply main_handlers_keep; model_event. }
    rewrite main_body_eq. fold source. unfold bind at 1, load_model.
    destruct (load_model_result env _ source) as [f|]; simpl.
    - apply frame_note_fault. model_event.
    - fold w_load.
      assert (keeps anywhere (uses_model source)
                (mkdir_exist_ok env "data" ;;;
                 mkdir_exist_ok env "output" ;;;
                 dispatch env args
                   {| model := source; data_dir := "data"; output_dir := "output" |}))
        as Hk; [|apply Hk].
      apply keeps_bind; [apply keeps_mkdir; model_event|]. intros _.
      apply keeps_bind; [apply keeps_mkdir; model_event|]. intros _.
      apply dispatch_keeps; model_event. }
  exists pre, post. split; [|done].
  by rewrite Hpost, Hpre, <- !app_assoc.
Qed.

(** With a local copy of the model the file is what gets loaded. *)
Example local_model_preferred :
  model_source "small" (Scenario.disk [("whisper/small.pt", File "weights")])
  = "whisper/small.pt"
  ∧ model_source "small" Scenario.lectures = "small"
  ∧ count_occ event_eq_dec
      (trace (snd (run Scenario.quiet Scenario.batch Scenario.lectures)))
      (LoadModel "base") = 1.
Proof. repeat split; vm_compute; reflexivity. Qed.

(** ** C10: a file named on the command line *)

Lemma frame_records touch ok ev w w' :
  frame touch ok w w' → ev ∈ trace w → ev ∈ trace w'.
Proof. intros [_ (evs & -> & _)] H. apply elem_of_app. by left. Qed.

Lemma records_bind {A B} ev (m : M A) (k : A → M B) :
  records ev m → (∀ a, keeps anywhere anything (k a)) → records ev (bind m k).
Proof.
  intros Hm Hk w. unfold bind. specialize (Hm w).
  destruct (m w) as [[a|e] w1]; simpl in *; [|done].
  by eapply frame_records; [apply Hk|].
Qed.

Lemma records_after_print {B} ev line (k : M B) :
  records ev k → records ev (print line ;;; k).
Proof. intros Hk w. rewrite print_then. apply Hk. Qed.

Lemma records_try_except {A} ev (body : M A) handler :
  records ev body → (∀ e h, handler e = Some h → keeps anywhere anything h) →
  records ev (try_except body handler).
Proof.
  intros Hb Hh w. unfold try_except. specialize (Hb w).
  destruct (body w) as [[a|e] w1]; simpl in *; [done|].
  destruct (handler e) as [h|] eqn:He; [|done].
  by eapply frame_records; [eapply Hh|].
Qed.

Lemma records_try_finally {A} ev (body : M A) final :
  records ev body → keeps anywhere anything final →
  records ev (try_finally body final).
Proof.
  intros Hb Hf w. unfold try_finally. specialize (Hb w).
  destruct (body w) as [r w1]. specialize (Hf w1).
  destruct (final w1) as [[[]|e] w2]; simpl in *; by eapply frame_records.
Qed.

Lemma decode_records env video audio :
  records (Decode video audio) (decode env video audio).
Proof.
  intros w. unfold decode.
  destruct (decode_result env w video audio) as [[bytes|] [[cause|]|]]; simpl;
    rewrite ?elem_of_app, ?list_elem_of_singleton; auto.
Qed.

Lemma except_Exception_keeps {A} touch ok (h : string → M A) e k :
  (∀ cause, keeps touch ok (h cause)) →
  except_Exception h e = Some k → keeps touch ok k.
Proof. intros Hh. destruct e; simpl; intros [= <-]. apply Hh. Qed.

(** The decoder is called on the file whenever [process_video] runs. *)
Lemma process_video_decodes env self video :
  records (Decode video (audio_path_of self video)) (process_video env self video).
Proof.
  unfold process_video. apply records_after_print.
  apply records_try_finally.
  2:{ by apply cleanup_keeps. }
  unfold attempt. apply records_try_except.
  2:{ intros e h. apply except_Exception_keeps. intros cause.
      by apply report_failure_keeps. }
  unfold steps. apply records_bind.
  2:{ intros _. apply keeps_bind; [by apply transcribe_audio_keeps|].
      intros text. apply keeps_bind; [by apply save_text_keeps|].
      intros _. by apply keeps_print. }
  unfold extract_audio. apply records_after_print. apply records_try_except.
  2:{ intros e h. apply except_Exception_keeps. intros cause.
      apply keeps_bind; [by apply keeps_print|]. intros _. apply keeps_raise. }
  apply records_bind; [apply decode_records|]. intros _. by apply keeps_print.
Qed.

(** C10.  When [--file] names an existing path, that is, when the path
    pathlib makes of the argument exists, [main] hands exactly that path to
    [process_video], whatever its extension: the run continues as
    [process_video] on that path and the decoder is called on it. *)
Theorem named_file_is_processed env args w self w1 f :
  __init__ env (arg_model args) w = (Ret self, w1) →
  arg_file args = Some f → f ≠ "" → is_Some (fs w1 !! Path.of_string f) →
  main_body env args w = process_video env self (Path.of_string f) w1
  ∧ Decode (Path.of_string f) (audio_path_of self (Path.of_string f))
    ∈ trace (snd (main_body env args w)).
Proof.
  intros Hi Hf Hne Hex.
  pose proof (main_body_file _ _ _ _ _ _ Hi Hf Hne Hex) as Hbody.
  split; [done|]. rewrite Hbody. apply process_video_decodes.
Qed.

(** An instance: the notes of the end-to-end scenario, which the scan of the
    directory ignores, are handed to the decoder when named with [--file],
    here as [./data/notes.txt]. *)
Lemma named_file_is_processed_witness :
  Decode "data/notes.txt" "output/notes_temp.wav"
  ∈ trace (snd (main_body Scenario.broken (Scenario.single "./data/notes.txt")
                  Scenario.lectures)).
Proof.
  edestruct (named_file_is_processed Scenario.broken
               (Scenario.single "./data/notes.txt") Scenario.lectures) as [_ H].
  - vm_compute. reflexivity.
  - reflexivity.
  - discriminate.
  - vm_compute. eexists. reflexivity.
  - exact H.
Defined.

(** The argument is normalised before it is looked up and printed. *)
Example dotted_argument_is_found :
  fst (run Scenario.quiet (Scenario.single "./data/talk.mp4") Scenario.lectures) = 0%Z
  ∧ run Scenario.quiet (Scenario.single "./missing.mp4") Scenario.empty_dir
    = (1%Z, emit (Print "❌ Файл не найден: missing.mp4")
              (snd (__init__ Scenario.quiet "base" Scenario.empty_dir))).
Proof. split; vm_compute; reflexivity. Qed.

Example notes_ignored_by_the_scan :
  "data/notes.txt" ∉ discover Scenario.quiet Scenario.conv Scenario.lectures.
Proof. apply (bool_decide_unpack _). vm_compute. exact I. Qed.

(** * Further properties of the program *)

(** ** Where a run writes *)

Lemma frame_after_banner touch ok model_name w :
  (∀ line, ok (Print line)) → frame touch ok w (after_banner model_name w).
Proof.
  intros Hok. unfold after_banner.
  destruct (bool_decide _); repeat (eapply frame_trans; [|by apply frame_emit]);
    apply frame_refl.
Qed.

Lemma main_handlers_area touch e h :
  main_handlers e = Some h → keeps touch anything h.
Proof.
  destruct e as [cause| |code]; simpl; intros [= <-]; unfold sys_exit.
  - apply keeps_bind; [by apply keeps_print|]. intros _. apply keeps_raise.
  - by apply keeps_print.
Qed.

Lemma run_world env args w : snd (run env args w) = snd (main env args w).
Proof. unfold run. by destruct (main env args w). Qed.

(** ** The initialization *)

Lemma fs_after_banner model_name w : fs (after_banner model_name w) = fs w.
Proof. unfold after_banner. by destruct (bool_decide _). Qed.

Lemma fs_note_fault f w : fs (note_fault f w) = fs w.
Proof. by destruct f. Qed.

(** X2.  When [load_model] raises, nothing else happens in the run: no
    directory is created, no file is touched, and the trace ends with the
    call and the message of the top-level handler; the exit code is 1 for an
    exception and 0 for an interrupt. *)
Theorem failed_load_does_nothing_else env args w f :
  load_model_result env (after_banner (arg_model args) w)
    (model_source (arg_model args) w) = Some f →
  fs (snd (run env args w)) = fs w
  ∧ fst (run env args w) = (match f with Failure _ => 1 | Interrupt => 0 end)%Z
  ∧ trace (snd (run env args w))
    = trace (after_banner (arg_model args) w)
      ++ LoadModel (model_source (arg_model args) w)
         :: match f with
            | Failure cause => [Print ("❌ Критическая ошибка: " +:+ cause)]
            | Interrupt =>
                [Sigint; Print (Str.nl +:+ "⚠️ Обработка прервана пользователем")]
            end.
Proof.
  intros Hload.
  assert (main_body env args w
          = (Raise (exn_of_fault f),
             note_fault f (emit (LoadModel (model_source (arg_model args) w))
                             (after_banner (arg_model args) w)))) as Hbody.
  { rewrite main_body_eq. unfold bind at 1, load_model. by rewrite Hload. }
  destruct f as [cause|]; simpl in Hbody.
  - rewrite (run_error _ _ _ _ _ Hbody). simpl.
    rewrite fs_after_banner, <- app_assoc. done.
  - rewrite (run_interrupt _ _ _ _ Hbody). simpl.
    rewrite fs_after_banner, <- !app_assoc. done.
Qed.

(** An instance: the checksum of the downloaded model is wrong. *)
Lemma failed_load_does_nothing_else_witness :
  fs (snd (run Scenario.no_model Scenario.batch Scenario.empty_dir))
  = fs Scenario.empty_dir.
Proof.
  refine (proj1 (failed_load_does_nothing_else Scenario.no_model Scenario.batch
                   Scenario.empty_dir (Failure "checksum does not match") _)).
  reflexivity.
Defined.

Lemma mkdir_exist_ok_fs env p w w1 :
  mkdir_exist_ok env p w = (Ret tt, w1) →
  fs w1 !! p = Some Dir
  ∧ (∀ q, is_Some (fs w !! q) → fs w1 !! q = fs w !! q)
  ∧ (∀ q, q ≠ p → fs w1 !! q = fs w !! q).
Proof.
  unfold mkdir_exist_ok. destruct (mkdir_result env w p); [by intros [=]|].
  destruct (fs w !! p) as [[content|]|] eqn:Hp; [by intros [=]|..];
    intros [= <-]; simpl.
  - by rewrite Hp.
  - split; [by rewrite lookup_insert_eq|]. split.
    + intros q [n Hq]. apply lookup_insert_ne. intros <-. congruence.
    + intros q Hq. by apply lookup_insert_ne.
Qed.

(** A regular file where a directory is expected makes the initialization
    fail. *)
Lemma mkdir_exist_ok_file env p w content :
  fs w !! p = Some (File content) →
  ∃ e, fst (mkdir_exist_ok env p w) = Raise e.
Proof.
  intros Hp. unfold mkdir_exist_ok.
  destruct (mkdir_result env w p); [by eexists|]. rewrite Hp. by eexists.
Qed.

(** X3.  After a successful initialization [data] and [output] are
    directories, whatever existed before is exactly as it was, and the
    converter holds the handle that [load_model] was called for.  In
    particular the initialization does not succeed when a regular file is in
    the place of one of the two directories. *)
Theorem init_ensures_directories env model_name w self w1 :
  __init__ env model_name w = (Ret self, w1) →
  fs w1 !! "data" = Some Dir ∧ fs w1 !! "output" = Some Dir
  ∧ (∀ p, is_Some (fs w !! p) → fs w1 !! p = fs w !! p)
  ∧ (∀ p, p ≠ "data" → p ≠ "output" → fs w1 !! p = fs w !! p)
  ∧ (∀ content, fs w !! "data" ≠ Some (File content)
                ∧ fs w !! "output" ≠ Some (File content))
  ∧ self = {| model := model_source model_name w;
              data_dir := "data"; output_dir := "output" |}.
Proof.
  rewrite init_eq. unfold bind at 1, load_model.
  destruct (load_model_result env _ _); [by intros [=]|].
  set (w0 := emit _ (after_banner model_name w)).
  assert (fs w0 = fs w) as Hw0 by apply fs_after_banner.
  unfold bind at 1.
  destruct (mkdir_exist_ok env "data" w0) as [[[]|e] wa] eqn:Ha; [|by intros [=]].
  unfold bind at 1.
  destruct (mkdir_exist_ok env "output" wa) as [[[]|e] wb] eqn:Hb; [|by intros [=]].
  intros [= <- <-].
  destruct (mkdir_exist_ok_fs _ _ _ _ Ha) as (Ha1 & Ha2 & Ha3).
  destruct (mkdir_exist_ok_fs _ _ _ _ Hb) as (Hb1 & Hb2 & Hb3).
  rewrite Hw0 in Ha2, Ha3.
  assert (∀ p, is_Some (fs w !! p) → fs wb !! p = fs w !! p) as Hkeep.
  { intros p Hp. rewrite Hb2; [by apply Ha2|]. by rewrite Ha2. }
  split; [by rewrite Hb3, Ha1|]. split; [done|]. split; [done|].
  split; [|split; [|done]].
  - intros p Hd Ho. by rewrite Hb3, Ha3.
  - intros content. split; intros Hfile.
    + rewrite <- Hkeep in Hfile by (rewrite Hfile; by eexists).
      rewrite Hb3, Ha1 in Hfile; [done|done].
    + rewrite <- Hkeep in Hfile by (rewrite Hfile; by eexists). congruence.
Qed.

(** An instance: a fresh working directory. *)
Lemma init_ensures_directories_witness :
  fs (snd (__init__ Scenario.quiet "base" (Scenario.disk []))) !! "output" = Some Dir.
Proof.
  edestruct (init_ensures_directories Scenario.quiet "base" (Scenario.disk []))
    as (_ & H & _).
  - vm_compute. reflexivity.
  - exact H.
Defined.

(** A regular file called [output] stops the run before any video. *)
Example file_in_place_of_output :
  run Scenario.quiet Scenario.batch
    (Scenario.disk [("data", Dir); ("output", File "notes");
                    ("data/talk.mp4", File "v1")])
  = (1%Z,
     emit (Print "❌ Критическая ошибка: [Errno 17] File exists: 'output'")
       (emit (Mkdir "output")
          (emit (Mkdir "data")
             (emit (LoadModel "base")
                (after_banner "base"
                   (Scenario.disk [("data", Dir); ("output", File "notes");
                                   ("data/talk.mp4", File "v1")])))))).
Proof. vm_compute. reflexivity. Qed.

Lemma mkdir_exist_ok_trace env p w w1 :
  mkdir_exist_ok env p w = (Ret tt, w1) → trace w1 = trace w ++ [Mkdir p].
Proof.
  unfold mkdir_exist_ok. destruct (mkdir_result env w p); [by intros [=]|].
  by destruct (fs w !! p) as [[content|]|]; intros [= <-].
Qed.

Lemma init_trace env model_name w self w1 :
  __init__ env model_name w = (Ret self, w1) →
  trace w1
  = trace (after_banner model_name w)
    ++ [LoadModel (model_source model_name w); Mkdir "data"; Mkdir "output"].
Proof.
  rewrite init_eq. unfold bind at 1, load_model.
  destruct (load_model_result env _ _); [by intros [=]|].
  unfold bind at 1.
  destruct (mkdir_exist_ok env "data" _) as [[[]|e] wa] eqn:Ha; [|by intros [=]].
  unfold bind at 1.
  destruct (mkdir_exist_ok env "output" wa) as [[[]|e] wb] eqn:Hb; [|by intros [=]].
  intros [= _ <-].
  rewrite (mkdir_exist_ok_trace _ _ _ _ Hb), (mkdir_exist_ok_trace _ _ _ _ Ha).
  simpl. by rewrite <- !app_assoc.
Qed.

(** X4.  The existence of the file given with [--file] is checked only after
    the initialization: when the path pathlib makes of the argument does not
    exist, the model has been loaded and [mkdir] has been called for both
    directories, which are directories afterwards, before the message with
    that path is printed and the run ends with exit code 1; nothing else
    happens. *)
Theorem missing_file_reported_after_setup env args w :
  file_not_found env args w →
  ∃ f,
    arg_file args = Some f
    ∧ fs (snd (run env args w)) !! Path.of_string f = None
    ∧ fst (run env args w) = 1%Z
    ∧ trace (snd (run env args w))
      = trace (after_banner (arg_model args) w)
        ++ [LoadModel (model_source (arg_model args) w); Mkdir "data"; Mkdir "output";
            Print ("❌ Файл не найден: " +:+ Path.of_string f)]
    ∧ fs (snd (run env args w)) !! "data" = Some Dir
    ∧ fs (snd (run env args w)) !! "output" = Some Dir.
Proof.
  intros (conv & w1 & f & Hi & Hf & Hne & Hex).
  exists f. split; [done|].
  rewrite (run_exit _ _ _ _ _ (file_not_found_exit _ _ _ _ _ _ Hi Hf Hne Hex)).
  simpl. split; [done|]. split; [done|].
  destruct (init_ensures_directories _ _ _ _ _ Hi) as (Hd & Ho & _).
  split; [|by split].
  by rewrite (init_trace _ _ _ _ _ Hi), <- app_assoc.
Qed.

(** An instance: the second end-to-end scenario of the specification, the
    file named as [./missing.mp4]. *)
Lemma missing_file_reported_after_setup_witness :
  ∃ f,
    arg_file (Scenario.single "./missing.mp4") = Some f
    ∧ fs (snd (run Scenario.quiet (Scenario.single "./missing.mp4")
                 Scenario.empty_dir)) !! Path.of_string f = None
    ∧ fst (run Scenario.quiet (Scenario.single "./missing.mp4") Scenario.empty_dir) = 1%Z
    ∧ trace (snd (run Scenario.quiet (Scenario.single "./missing.mp4")
                    Scenario.empty_dir))
      = trace (after_banner "base" Scenario.empty_dir)
        ++ [LoadModel (model_source "base" Scenario.empty_dir);
            Mkdir "data"; Mkdir "output";
            Print ("❌ Файл не найден: " +:+ Path.of_string f)]
    ∧ fs (snd (run Scenario.quiet (Scenario.single "./missing.mp4")
                 Scenario.empty_dir)) !! "data" = Some Dir
    ∧ fs (snd (run Scenario.quiet (Scenario.single "./missing.mp4")
                 Scenario.empty_dir)) !! "output" = Some Dir.
Proof.
  apply (missing_file_reported_after_setup Scenario.quiet
           (Scenario.single "./missing.mp4") Scenario.empty_dir).
  eexists _, _, _. repeat split; try (vm_compute; reflexivity). discriminate.
Defined.

(** ** Failures of single videos and the exit code *)

Lemma attempt_not_error env self video :
  raises_only not_error (attempt env self video).
Proof.
  intros w e. unfold attempt, try_except.
  destruct (steps env self video w) as [[[]|[cause| |code]] w1]; simpl; try done.
  - by intros [= <-].
  - by intros [= <-].
Qed.

Lemma cleanup_not_error env audio :
  deletion_never_fails env → raises_only not_error (cleanup env audio).
Proof.
  intros Hdel w e.
  destruct (fs w !! audio) as [n|] eqn:Hn.
  - destruct (unlink_result env w audio) as [[cause|]|] eqn:Hu.
    + by destruct (Hdel w audio cause).
    + rewrite (cleanup_failed env audio w Interrupt); [|by eexists|done].
      by intros [= <-].
    + by rewrite cleanup_deleted; [|by eexists|done].
  - by rewrite cleanup_absent.
Qed.

Lemma process_video_not_error env self video :
  deletion_never_fails env → raises_only not_error (process_video env self video).
Proof.
  intros Hdel. unfold process_video.
  apply raises_bind; [apply raises_print|]. intros _.
  apply raises_try_finally; [apply attempt_not_error|by apply cleanup_not_error].
Qed.

Lemma process_all_videos_not_error env self :
  deletion_never_fails env → raises_only not_error (process_all_videos env self).
Proof.
  intros Hdel w e. unfold process_all_videos.
  destruct (discover env self w) as [|video rest].
  - apply (raises_bind not_error); [apply raises_print|]. intros _. apply raises_print.
  - apply (raises_bind not_error); [apply raises_print|]. intros _.
    apply raises_bind; [|intros _; apply raises_print].
    apply raises_for_each. intros x. by apply process_video_not_error.
Qed.

Lemma dispatch_not_error env args self :
  deletion_never_fails env → raises_only not_error (dispatch env args self).
Proof.
  intros Hdel. unfold dispatch. destruct (arg_file args) as [f|];
    [|by apply process_all_videos_not_error].
  destruct (String.eqb f ""); [by apply process_all_videos_not_error|].
  cbv zeta. apply raises_bind; [apply raises_path_exists|]. intros [|]; simpl.
  - by apply process_video_not_error.
  - apply raises_bind; [apply raises_print|]. intros _.
    by apply raises_raise.
Qed.

(** X5.  The exit code does not tell whether the videos were transcribed.
    When the initialization does not fail and no deletion fails, the exit
    code is 0 however many videos fail to be decoded, recognized or written,
    and it is 1 exactly when the path pathlib makes of the [--file] argument
    is found missing. *)
Theorem exit_code_ignores_video_failures env args w :
  deletion_never_fails env → ¬ init_fails env args w →
  (fst (run env args w) = 0%Z ∧ ¬ file_not_found env args w)
  ∨ (fst (run env args w) = 1%Z ∧ file_not_found env args w).
Proof.
  intros Hdel Hinit.
  assert (∀ cause w', main_body env args w ≠ (Raise (Error cause), w')) as Hne.
  { intros cause w' Hb.
    destruct (__init__ env (arg_model args) w) as [[conv|e] w1] eqn:Hi.
    - unfold main_body in Hb. rewrite (bind_ret_eq _ _ _ _ _ Hi) in Hb.
      apply (dispatch_not_error env args conv Hdel w1 (Error cause)
               ltac:(by rewrite Hb) cause eq_refl).
    - rewrite (init_failure_reaches_top _ _ _ _ _ Hi) in Hb.
      injection Hb as -> ->. apply Hinit. by exists cause, w'. }
  assert (∀ r w', main_body env args w = (r, w') →
                  (∀ code, r ≠ Raise (SystemExit code)) →
                  ¬ file_not_found env args w) as Hnot.
  { intros r w' Hb Hr (conv & w1 & f & Hi & Hf & Hnef & Hex).
    rewrite (file_not_found_exit _ _ _ _ _ _ Hi Hf Hnef Hex) in Hb.
    injection Hb as <- _. by apply (Hr 1%Z). }
  destruct (main_body env args w) as [[[]|[cause| |code]] w'] eqn:Hbody.
  - left. rewrite (run_ret _ _ _ _ Hbody). split; [done|]. by eapply Hnot.
  - by destruct (Hne cause w').
  - left. rewrite (run_interrupt _ _ _ _ Hbody). split; [done|]. by eapply Hnot.
  - right. destruct (main_body_exit _ _ _ _ _ Hbody) as [Hnf ->].
    by rewrite (run_exit _ _ _ _ _ Hbody).
Qed.

(** An instance: neither lecture can be decoded, the exit code is 0. *)
Lemma exit_code_ignores_video_failures_witness :
  fst (run Scenario.broken Scenario.batch Scenario.lectures) = 0%Z
  ∧ (Print "❌ Ошибка при обработке clip.MP4: MoviePy error: failed to read the first frame"
     ∈ trace (snd (run Scenario.broken Scenario.batch Scenario.lectures))).
Proof.
  split; [|apply (bool_decide_unpack _); vm_compute; exact I].
  destruct (exit_code_ignores_video_failures Scenario.broken Scenario.batch
              Scenario.lectures) as [[H _]|[H _]].
  - intros w p cause. discriminate.
  - intros (cause & w1 & H). vm_compute in H. discriminate H.
  - exact H.
  - vm_compute in H. discriminate H.
Defined.

(** ** Every discovered video is attempted *)

Lemma decoded_videos_app evs1 evs2 :
  decoded_videos (evs1 ++ evs2) = decoded_videos evs1 ++ decoded_videos evs2.
Proof. unfold decoded_videos. apply flat_map_app. Qed.

Lemma decoded_videos_none evs : Forall not_decode evs → decoded_videos evs = [].
Proof.
  induction 1 as [|ev evs Hev _ IH]; [done|].
  change (decoded_videos (ev :: evs))
    with (match ev with Decode video _ => [video] | _ => [] end ++ decoded_videos evs).
  rewrite IH. destruct ev; try done. by destruct (Hev video audio).
Qed.

Lemma decodes_bind {A B} video (m : M A) (k : A → M B) :
  decodes_once video m → (∀ a, keeps anywhere not_decode (k a)) →
  decodes_once video (bind m k).
Proof.
  intros Hm Hk w. unfold bind. destruct (Hm w) as (evs & Htr & Hdec).
  destruct (m w) as [[a|e] w1]; simpl in *; [|by exists evs].
  destruct (Hk a w1) as [_ (evs' & Htr' & Hnone)].
  exists (evs ++ evs'). split; [by rewrite Htr', Htr, app_assoc|].
  by rewrite decoded_videos_app, Hdec, (decoded_videos_none _ Hnone).
Qed.

Lemma decodes_after_print {B} video line (k : M B) :
  decodes_once video k → decodes_once video (print line ;;; k).
Proof.
  intros Hk w. rewrite print_then.
  destruct (Hk (emit (Print line) w)) as (evs & Htr & Hdec).
  exists (Print line :: evs). split; [|done].
  rewrite Htr. simpl. by rewrite <- app_assoc.
Qed.

Lemma decodes_try_except {A} video (body : M A) handler :
  decodes_once video body →
  (∀ e h, handler e = Some h → keeps anywhere not_decode h) →
  decodes_once video (try_except body handler).
Proof.
  intros Hb Hh w. unfold try_except. destruct (Hb w) as (evs & Htr & Hdec).
  destruct (body w) as [[a|e] w1]; simpl in *; [by exists evs|].
  destruct (handler e) as [h|] eqn:He; [|by exists evs].
  destruct (Hh e h He w1) as [_ (evs' & Htr' & Hnone)].
  exists (evs ++ evs'). split; [by rewrite Htr', Htr, app_assoc|].
  by rewrite decoded_videos_app, Hdec, (decoded_videos_none _ Hnone).
Qed.

Lemma decodes_try_finally {A} video (body : M A) final :
  decodes_once video body → keeps anywhere not_decode final →
  decodes_once video (try_finally body final).
Proof.
  intros Hb Hf w. unfold try_finally. destruct (Hb w) as (evs & Htr & Hdec).
  destruct (body w) as [r w1]. destruct (Hf w1) as [_ (evs' & Htr' & Hnone)].
  exists (evs ++ evs').
  destruct (final w1) as [[[]|e] w2]; simpl in *;
    (split; [by rewrite Htr', Htr, app_assoc|]);
    by rewrite decoded_videos_app, Hdec, (decoded_videos_none _ Hnone).
Qed.

Lemma decode_decodes_once env video audio :
  decodes_once video (decode env video audio).
Proof.
  intros w. unfold decode.
  destruct (decode_result env w video audio) as [[bytes|] [[cause|]|]]; simpl;
    first [ by exists [Decode video audio]
          | exists [Decode video audio; Sigint]; by rewrite <- app_assoc ].
Qed.

Lemma not_decode_print line : not_decode (Print line).
Proof. by intros video audio. Qed.

Lemma process_video_decodes_once env self video :
  decodes_once video (process_video env self video).
Proof.
  unfold process_video. apply decodes_after_print.
  apply decodes_try_finally.
  2:{ by apply cleanup_keeps; [apply not_decode_print|..]. }
  unfold attempt. apply decodes_try_except.
  2:{ intros e h. apply except_Exception_keeps. intros cause.
      apply report_failure_keeps, not_decode_print. }
  unfold steps. apply decodes_bind.
  2:{ intros _. apply keeps_bind;
        [by apply transcribe_audio_keeps; [apply not_decode_print|..]|].
      intros text. apply keeps_bind;
        [by apply save_text_keeps; [apply not_decode_print|..]|].
      intros _. apply keeps_print, not_decode_print. }
  unfold extract_audio. apply decodes_after_print. apply decodes_try_except.
  2:{ intros e h. apply except_Exception_keeps. intros cause.
      apply keeps_bind; [apply keeps_print, not_decode_print|].
      intros _. apply keeps_raise. }
  apply decodes_bind; [apply decode_decodes_once|].
  intros _. apply keeps_print, not_decode_print.
Qed.

Lemma process_video_returns env self video w :
  deletion_never_fails env →
  ¬ interrupted (snd (process_video env self video w)) →
  fst (process_video env self video w) = Ret tt.
Proof.
  intros Hdel Hquiet.
  assert (¬ interrupted w) as Hw.
  { intros Hw. apply Hquiet.
    destruct (process_video_decodes_once env self video w) as (evs & Htr & _).
    unfold interrupted. rewrite Htr. apply elem_of_app. by left. }
  pose proof (process_video_passes env self video
                ltac:(intros w0 p cause _; apply Hdel) w Hw) as Hpass.
  pose proof (process_video_not_error env self video Hdel w) as Hne.
  pose proof (process_video_not_exit env self video w) as Hnx.
  destruct (process_video env self video w) as [[[]|[cause| |code]] w1];
    simpl in *; [done|..].
  - by destruct (Hne _ eq_refl cause).
  - destruct Hquiet. by apply Hpass.
  - by destruct (Hnx _ eq_refl code).
Qed.

Lemma for_each_attempts_all env self videos w :
  deletion_never_fails env →
  ¬ interrupted (snd (for_each videos (process_video env self) w)) →
  fst (for_each videos (process_video env self) w) = Ret tt
  ∧ ∃ evs, trace (snd (for_each videos (process_video env self) w)) = trace w ++ evs
           ∧ decoded_videos evs = videos.
Proof.
  intros Hdel. revert w. induction videos as [|video rest IH]; intros w Hquiet.
  - split; [done|]. exists []. by rewrite app_nil_r.
  - destruct (process_video_decodes_once env self video w) as (evs1 & Htr1 & Hdec1).
    destruct (process_video env self video w) as [r1 w1] eqn:Hpv.
    assert (r1 = Ret tt) as ->.
    { pose proof (process_video_returns env self video w Hdel) as Hret.
      rewrite Hpv in Hret. apply Hret. simpl.
      destruct r1 as [[]|e].
      - rewrite (for_each_cons_ret _ _ _ _ _ Hpv) in Hquiet.
        intros Hw1. apply Hquiet.
        assert (keeps anywhere anything (for_each rest (process_video env self)))
          as Hk by (apply keeps_for_each; intros x; by apply process_video_keeps).
        by eapply frame_records; [apply Hk|].
      - by rewrite (for_each_cons_raise _ _ _ _ _ _ Hpv) in Hquiet. }
    rewrite (for_each_cons_ret _ _ _ _ _ Hpv) in Hquiet |- *.
    destruct (IH w1 Hquiet) as (Hret & evs2 & Htr2 & Hdec2).
    split; [done|]. exists (evs1 ++ evs2). simpl in Htr1.
    split; [by rewrite Htr2, Htr1, app_assoc|].
    by rewrite decoded_videos_app, Hdec1, Hdec2.
Qed.

(** X6.  When no deletion fails and no interrupt arrives, the scan of the
    input directory runs to its end whatever happens to the single videos:
    [process_all_videos] returns, and the decoder has been called exactly
    once for every discovered video, in the order of discovery, on the list
    as it was discovered before the first video was touched. *)
Theorem batch_attempts_every_video env self w :
  deletion_never_fails env →
  ¬ interrupted (snd (process_all_videos env self w)) →
  fst (process_all_videos env self w) = Ret tt
  ∧ ∃ evs, trace (snd (process_all_videos env self w)) = trace w ++ evs
           ∧ decoded_videos evs = discover env self w.
Proof.
  intros Hdel. unfold process_all_videos.
  destruct (discover env self w) as [|video rest] eqn:Hd.
  - intros _. split; [done|]. eexists. split; [simpl; by rewrite <- app_assoc|done].
  - set (w0 := emit (Print ("Найдено видео файлов: "
                            +:+ pretty (length (video :: rest)))) w).
    rewrite print_then. fold w0. unfold bind at 1 2 3.
    intros Hquiet.
    destruct (for_each (video :: rest) (process_video env self) w0) as [r w1] eqn:Hfe.
    assert (¬ interrupted w1) as Hw1.
    { intros Hw1. apply Hquiet. destruct r as [[]|e]; simpl; [|done].
      apply interrupted_emit. by left. }
    pose proof (for_each_attempts_all env self (video :: rest) w0 Hdel) as Hall.
    rewrite Hfe in Hall. destruct (Hall Hw1) as (Hr & evs & Htr & Hdec).
    simpl in Hr, Htr. subst r. simpl. split; [done|].
    eexists. split.
    + rewrite Htr. unfold w0. simpl. rewrite <- !app_assoc. reflexivity.
    + rewrite !decoded_videos_app, Hdec. simpl. by rewrite app_nil_r.
Qed.

(** An instance: the first lecture cannot be decoded, the second one is
    still handed to the decoder. *)
Lemma batch_attempts_every_video_witness :
  decoded_videos (trace (snd (process_all_videos Scenario.broken Scenario.conv
                                Scenario.lectures)))
  = ["data/talk.mp4"; "data/clip.MP4"].
Proof.
  destruct (batch_attempts_every_video Scenario.broken Scenario.conv Scenario.lectures)
    as (_ & evs & Htr & Hdec).
  - intros w p cause. discriminate.
  - apply (bool_decide_unpack _). vm_compute. exact I.
  - rewrite Htr. simpl. rewrite Hdec. vm_compute. reflexivity.
Defined.

(** ** How a failing step is reported *)

Lemma reraise_logged {A} (body : M A) label w cause w1 :
  try_except body
    (except_Exception (fun e => print (label +:+ e) ;;; raise (Error e))) w
  = (Raise (Error cause), w1) →
  ∃ w', body w = (Raise (Error cause), w') ∧ w1 = emit (Print (label +:+ cause)) w'.
Proof.
  unfold try_except.
  destruct (body w) as [[a|[c| |code]] w']; simpl; try (by intros [=]).
  cbv [bind print raise]. intros [= -> <-]. by exists w'.
Qed.

(** X7.  A failing step is reported twice with the same cause: the step
    prints its own line and re-raises, and [process_video] prints the line
    with the file name right after it, before the cleanup starts. *)
Theorem step_failure_logged_twice env self video w cause w1 :
  step_failure env self video (emit (Print (header video)) w) cause w1 →
  ∃ label w',
    label ∈ step_labels
    ∧ w1 = emit (Print (label +:+ cause)) w'
    ∧ trace (snd (before_cleanup env self video w))
      = trace w'
        ++ [Print (label +:+ cause);
            Print ("❌ Ошибка при обработке " +:+ Path.name video +:+ ": " +:+ cause)].
Proof.
  intros Hfail. rewrite (failure_logged _ _ _ _ _ _ Hfail). simpl.
  assert (∃ label w', label ∈ step_labels ∧ w1 = emit (Print (label +:+ cause)) w')
    as (label & w' & Hin & ->).
  { destruct Hfail as [H|wa _ H|wa wb text _ _ H].
    - unfold extract_audio in H. rewrite print_then in H.
      apply reraise_logged in H as (w' & _ & ->).
      eexists _, w'. split; [|done]. unfold step_labels. set_solver.
    - unfold transcribe_audio in H. rewrite print_then in H.
      apply reraise_logged in H as (w' & _ & ->).
      eexists _, w'. split; [|done]. unfold step_labels. set_solver.
    - unfold save_text in H.
      apply reraise_logged in H as (w' & _ & ->).
      eexists _, w'. split; [|done]. unfold step_labels. set_solver. }
  exists label, w'. split; [done|]. split; [done|].
  simpl. by rewrite <- app_assoc.
Qed.

(** An instance: the recognizer runs out of memory. *)
Lemma step_failure_logged_twice_witness :
  ∃ label w',
    label ∈ step_labels
    ∧ snd (steps Scenario.mute Scenario.conv "data/talk.mp4"
             (emit (Print (header "data/talk.mp4")) Scenario.lectures))
      = emit (Print (label +:+ "CUDA out of memory")) w'
    ∧ trace (snd (before_cleanup Scenario.mute Scenario.conv "data/talk.mp4"
                    Scenario.lectures))
      = trace w'
        ++ [Print (label +:+ "CUDA out of memory");
            Print ("❌ Ошибка при обработке " +:+ Path.name "data/talk.mp4" +:+ ": "
                   +:+ "CUDA out of memory")].
Proof.
  eapply (step_failure_logged_twice Scenario.mute Scenario.conv "data/talk.mp4"
            Scenario.lectures "CUDA out of memory").
  eapply transcription_failed; vm_compute; reflexivity.
Defined.

(** ** More on input discovery *)

Lemma endswith_lower s suf :
  Str.endswith s suf = true → Str.endswith (Str.lower s) (Str.lower suf) = true.
Proof.
  induction s as [|c r IH].
  - destruct suf; [done|]. by simpl.
  - rewrite endswith_cons.
    destruct (String.eqb_spec (String c r) suf) as [<-|Hne].
    + intros _. apply endswith_refl.
    + intros H%IH. change (Str.lower (String c r))
        with (String (Str.lower_ascii c) (Str.lower r)).
      rewrite endswith_cons, H. by destruct (String.eqb _ _).
Qed.

Lemma patterns_lower :
  map Str.lower (patterns video_extensions)
  = flat_map (fun ext => [ext; ext]) video_extensions.
Proof. vm_compute. reflexivity. Qed.

Lemma case_blind_hit env n pat :
  name_matches env n pat = true →
  Str.endswith (Str.lower n) (Str.lower pat) = true.
Proof.
  unfold name_matches. destruct (case_sensitive env); [apply endswith_lower|done].
Qed.

Lemma glob_sound env dir pat w p :
  In p (glob env dir pat w) →
  is_Some (fs w !! p)
  ∧ ∃ n, Path.child_name dir p = Some n ∧ name_matches env n pat = true.
Proof.
  unfold glob. intros [Hin Hm]%filter_In. split.
  - apply in_map_iff in Hin as ([q node] & <- & Hq).
    apply list_elem_of_In, elem_of_map_to_list in Hq. by eexists.
  - unfold glob_matches in Hm. destruct (Path.child_name dir p) as [n|]; [|done].
    by exists n.
Qed.

(** X8.  Whatever the platform, everything the scan discovers exists, is a
    direct child of the input directory, and has a name that ends, case
    ignored, with one of the seven extensions: other files, and files in
    sub-directories, are never handed to the per-video processor by a scan. *)
Theorem discover_sound env self w p :
  set_order env ≡ₚ video_extensions →
  p ∈ discover env self w →
  is_Some (fs w !! p)
  ∧ ∃ n ext, Path.child_name (data_dir self) p = Some n
             ∧ ext ∈ video_extensions
             ∧ Str.endswith (Str.lower n) ext = true.
Proof.
  intros Hperm Hin. rewrite discover_eq in Hin.
  apply list_elem_of_In, in_flat_map in Hin as (pat & Hpat & Hin).
  apply glob_sound in Hin as (Hex & n & Hn & Hm). split; [done|].
  apply case_blind_hit in Hm.
  assert (In (Str.lower pat) (map Str.lower (patterns video_extensions))) as Hl.
  { apply in_map. apply list_elem_of_In.
    rewrite <- (patterns_Permutation _ _ Hperm). by apply list_elem_of_In. }
  rewrite patterns_lower in Hl. apply in_flat_map in Hl as (ext & Hext & Hl).
  exists n, ext. split; [done|]. split; [by apply list_elem_of_In|].
  destruct Hl as [->|[->|[]]]; done.
Qed.

(** An instance: the upper-case lecture of the end-to-end scenario. *)
Lemma discover_sound_witness :
  is_Some (fs Scenario.lectures !! "data/clip.MP4").
Proof.
  refine (proj1 (discover_sound Scenario.quiet Scenario.conv Scenario.lectures
                   "data/clip.MP4" _ _)).
  - reflexivity.
  - apply (bool_decide_unpack _). vm_compute. exact I.
Defined.

Lemma filter_map_length {A B} (f : A → B) (g : B → bool) l :
  length (List.filter (fun x => g (f x)) l) = length (List.filter g (map f l)).
Proof.
  induction l as [|x l IH]; simpl; [done|].
  destruct (g (f x)); simpl; by rewrite IH.
Qed.

Lemma filter_doubled_length {A} (g : A → bool) l :
  length (List.filter g (flat_map (fun x => [x; x]) l))
  = 2 * length (List.filter g l).
Proof.
  induction l as [|x l IH]; simpl; [done|].
  destruct (g x); simpl; rewrite IH; lia.
Qed.

Lemma video_extensions_NoDup : NoDup video_extensions.
Proof. apply (bool_decide_unpack _). vm_compute. exact I. Qed.

Lemma video_extensions_suffix_free : suffix_free video_extensions = true.
Proof. vm_compute. reflexivity. Qed.

(** X9.  On a platform whose glob ignores case, the two patterns searched
    for each extension match the same entries: every entry whose name ends,
    case ignored, with one of the seven extensions is listed exactly twice,
    and is therefore processed twice by a scan. *)
Theorem discover_twice_without_case env self w p n ext :
  case_sensitive env = false →
  set_order env ≡ₚ video_extensions →
  is_Some (fs w !! p) →
  Path.child_name (data_dir self) p = Some n →
  ext ∈ video_extensions →
  Str.endswith (Str.lower n) ext = true →
  count_occ String.string_dec (discover env self w) p = 2.
Proof.
  intros Hcs Hperm Hp Hn Hext Hends.
  rewrite discover_eq.
  rewrite (count_occ_flat_map _ _
             (fun pat => Str.endswith (Str.lower n) (Str.lower pat))).
  2:{ intros pat. rewrite (glob_count _ _ _ _ _ Hp).
      unfold glob_matches, name_matches. by rewrite Hn, Hcs. }
  rewrite (filter_length_Permutation _ _ _ (patterns_Permutation _ _ Hperm)).
  rewrite (filter_map_length Str.lower (Str.endswith (Str.lower n))).
  rewrite patterns_lower, filter_doubled_length.
  rewrite (filter_length_unique _ _ ext); [done| |done|done|].
  - apply video_extensions_NoDup.
  - intros ext' Hext' Hends'.
    destruct (endswith_comparable _ _ _ Hends Hends') as [H|H].
    + symmetry.
      eapply (suffix_free_spec _ _ _ video_extensions_suffix_free);
        [by apply list_elem_of_In..|done].
    + eapply (suffix_free_spec _ _ _ video_extensions_suffix_free);
        [by apply list_elem_of_In..|done].
Qed.

(** An instance: a mixed-case name where glob ignores case. *)
Lemma discover_twice_without_case_witness :
  count_occ String.string_dec
    (discover Scenario.windows Scenario.conv Scenario.mixed_case) "data/intro.Mp4" = 2.
Proof.
  apply (discover_twice_without_case Scenario.windows Scenario.conv
           Scenario.mixed_case "data/intro.Mp4" "intro.Mp4" ".mp4").
  - reflexivity.
  - reflexivity.
  - vm_compute. eexists. reflexivity.
  - vm_compute. reflexivity.
  - apply (bool_decide_unpack _). vm_compute. exact I.
  - vm_compute. reflexivity.
Defined.

(** ** From the name of a video to the names of its outputs *)

Lemma append_cons c r t : String c r +:+ t = String c (r +:+ t).
Proof. reflexivity. Qed.

Lemma strip_prefix_Some pre s r :
  Str.strip_prefix pre s = Some r → s = pre +:+ r.
Proof.
  revert s. induction pre as [|a pre IH]; intros [|b s]; simpl; try done.
  - by intros [= <-].
  - by intros [= <-].
  - destruct (Ascii.eqb_spec a b) as [->|]; [|done].
    intros H. rewrite append_cons. f_equal. by apply IH.
Qed.

Lemma child_name_Some dir p n :
  Path.child_name dir p = Some n →
  p = dir // n ∧ Str.contains_char "/" n = false ∧ n ≠ "".
Proof.
  unfold Path.child_name.
  destruct (Str.strip_prefix (dir +:+ "/") p) as [r|] eqn:Hr; [|done].
  destruct (String.eqb_spec r "") as [|Hne]; [done|]. simpl.
  destruct (Str.contains_char "/" r) eqn:Hc; [done|]. intros [= <-].
  apply strip_prefix_Some in Hr. split; [|done].
  unfold Path.join. clear -Hr. subst p.
  induction dir as [|c dir IH]; [done|]. by rewrite !append_cons, IH.
Qed.

Lemma after_last_slash_cons cur c r :
  Path.after_last_slash cur (String c r)
  = if Ascii.eqb c "/" then Path.after_last_slash r r
    else Path.after_last_slash cur r.
Proof. reflexivity. Qed.

Lemma contains_char_cons c d r :
  Str.contains_char c (String d r) = Ascii.eqb c d || Str.contains_char c r.
Proof. reflexivity. Qed.

Lemma after_last_slash_free cur n :
  Str.contains_char "/" n = false → Path.after_last_slash cur n = cur.
Proof.
  revert cur. induction n as [|c n IH]; intros cur; [done|].
  rewrite contains_char_cons, after_last_slash_cons, (Ascii.eqb_sym c).
  destruct (Ascii.eqb "/" c); [done|]. apply IH.
Qed.

Lemma join_not_dot dir n : String.eqb (dir // n) "." = false.
Proof.
  apply String.eqb_neq. intros H. apply (f_equal (Str.contains_char "/")) in H.
  revert H. unfold Path.join. induction dir as [|c dir IH].
  - change ("" +:+ "/" +:+ n) with (String "/" n).
    by rewrite contains_char_cons, Ascii.eqb_refl.
  - rewrite append_cons, contains_char_cons.
    destruct (Ascii.eqb "/" c); [done|]. apply IH.
Qed.

Lemma name_join dir n :
  Str.contains_char "/" n = false → Path.name (dir // n) = n.
Proof.
  intros Hn. unfold Path.name. rewrite join_not_dot. unfold Path.join.
  generalize (dir +:+ "/" +:+ n) at 1. induction dir as [|c dir IH]; intros cur.
  - change ("" +:+ "/" +:+ n) with (String "/" n).
    rewrite after_last_slash_cons, Ascii.eqb_refl.
    by apply after_last_slash_free.
  - rewrite append_cons, after_last_slash_cons.
    destruct (Ascii.eqb c "/"); apply IH.
Qed.

Lemma rfind_dot_append s t :
  Str.rfind_dot (s +:+ t)
  = match Str.rfind_dot t with
    | Some i => Some (String.length s + i)
    | None => Str.rfind_dot s
    end.
Proof.
  induction s as [|c s IH].
  - change ("" +:+ t) with t. by destruct (Str.rfind_dot t).
  - rewrite append_cons.
    change (Str.rfind_dot (String c (s +:+ t)))
      with (match Str.rfind_dot (s +:+ t) with
            | Some i => Some (S i)
            | None => if Ascii.eqb c "." then Some 0 else None
            end).
    rewrite IH. by destruct (Str.rfind_dot t).
Qed.

Lemma length_append s t :
  String.length (s +:+ t) = String.length s + String.length t.
Proof.
  induction s as [|c s IH]; [done|]. rewrite append_cons. simpl. by rewrite IH.
Qed.

Lemma substring_prefix s t : substring 0 (String.length s) (s +:+ t) = s.
Proof.
  induction s as [|c s IH].
  - change ("" +:+ t) with t. by destruct t.
  - rewrite append_cons. simpl. by rewrite IH.
Qed.

Lemma patterns_shape ext :
  ext ∈ patterns video_extensions →
  Str.rfind_dot ext = Some 0 ∧ 2 ≤ String.length ext.
Proof.
  intros Hin.
  assert (forallb (fun e => match Str.rfind_dot e with
                            | Some 0 => 2 <=? String.length e
                            | _ => false
                            end) (patterns video_extensions) = true) as Hall
    by (vm_compute; reflexivity).
  rewrite forallb_forall in Hall. specialize (Hall ext).
  destruct (Str.rfind_dot ext) as [[|i]|]; try (by discriminate Hall; apply list_elem_of_In).
  split; [done|]. apply Nat.leb_le, Hall. by apply list_elem_of_In.
Qed.

Lemma stem_of_entry dir s ext :
  s ≠ "" → Str.contains_char "/" (s +:+ ext) = false →
  ext ∈ patterns video_extensions →
  Path.stem (dir // (s +:+ ext)) = s.
Proof.
  intros Hs Hfree Hext. destruct (patterns_shape ext Hext) as [Hdot Hlen].
  unfold Path.stem. rewrite (name_join _ _ Hfree), rfind_dot_append, Hdot.
  rewrite length_append, Nat.add_0_r.
  assert (0 < String.length s) as Hpos by (destruct s; [done|simpl; lia]).
  assert ((0 <? String.length s)
          && (String.length s <? String.length s + String.length ext - 1) = true)
    as ->.
  { apply andb_true_intro. split; [by apply Nat.ltb_lt|apply Nat.ltb_lt; lia]. }
  apply substring_prefix.
Qed.

(** X10.  For an entry of the input directory named [<s><ext>], with [<s>]
    not empty and [<ext>] one of the searched extensions in lower or upper
    case, the name printed in the messages is [<s><ext>], the intermediate
    audio is [<output>/<s>_temp.wav] and the transcript is
    [<output>/<s>.txt]; dots inside [<s>] are kept. *)
Theorem outputs_of_entry self p s ext :
  Path.child_name (data_dir self) p = Some (s +:+ ext) →
  s ≠ "" → ext ∈ patterns video_extensions →
  Path.name p = s +:+ ext
  ∧ audio_path_of self p = output_dir self // (s +:+ "_temp.wav")
  ∧ text_path_of self p = output_dir self // (s +:+ ".txt").
Proof.
  intros (-> & Hfree & _)%child_name_Some Hs Hext.
  split; [by apply name_join|].
  unfold audio_path_of, text_path_of. by rewrite stem_of_entry.
Qed.

(** An instance: a lecture with a dot in its name. *)
Lemma outputs_of_entry_witness :
  text_path_of Scenario.conv "data/week.1.MP4" = "output/week.1.txt".
Proof.
  destruct (outputs_of_entry Scenario.conv "data/week.1.MP4" "week.1" ".MP4")
    as (_ & _ & H).
  - vm_compute. reflexivity.
  - discriminate.
  - apply (bool_decide_unpack _). vm_compute. exact I.
  - exact H.
Defined.

Lemma success_transcript env self video w wa wb wc text :
  extract_audio env video (audio_path_of self video) (emit (Print (header video)) w)
    = (Ret tt, wa) →
  transcribe_audio env self (audio_path_of self video) wa = (Ret text, wb) →
  save_text env text (text_path_of self video) wb = (Ret tt, wc) →
  fs (snd (process_video env self video w)) !! text_path_of self video
  = Some (File text).
Proof.
  intros Ha Hb Hc. pose proof (save_text_ret _ _ _ _ _ Hc) as Hwc.
  rewrite process_video_world. unfold before_cleanup, attempt.
  rewrite (try_except_ret_eq _ _ _ _ _ (steps_ret _ _ _ _ _ _ _ _ Ha Hb Hc)). simpl.
  destruct (cleanup_keeps env (eq (audio_path_of self video)) anything
              ltac:(done) I (audio_path_of self video) eq_refl I
              (emit (Print ("✅ Видео " +:+ Path.name video +:+ " успешно обработано!")) wc))
    as [Hfs _].
  rewrite Hfs by (intros Heq; by apply (text_path_not_audio_path self video)).
  rewrite Hwc. simpl. apply lookup_insert_eq.
Qed.

(** X11.  Two entries of the input directory that differ only in their
    extension share the intermediate audio path and the transcript path.
    When both are processed one after the other and the second one is
    transcribed, its text is what [<s>.txt] holds in the end: the transcript
    of the first is replaced. *)
Theorem same_stem_transcripts_collide env self p1 p2 s ext1 ext2 w w1 wa wb wc text :
  Path.child_name (data_dir self) p1 = Some (s +:+ ext1) →
  Path.child_name (data_dir self) p2 = Some (s +:+ ext2) →
  s ≠ "" → ext1 ∈ patterns video_extensions → ext2 ∈ patterns video_extensions →
  process_video env self p1 w = (Ret tt, w1) →
  extract_audio env p2 (audio_path_of self p2) (emit (Print (header p2)) w1)
    = (Ret tt, wa) →
  transcribe_audio env self (audio_path_of self p2) wa = (Ret text, wb) →
  save_text env text (text_path_of self p2) wb = (Ret tt, wc) →
  audio_path_of self p1 = audio_path_of self p2
  ∧ text_path_of self p1 = text_path_of self p2
  ∧ fs (snd (for_each [p1; p2] (process_video env self) w)) !! text_path_of self p1
    = Some (File text).
Proof.
  intros H1 H2 Hs He1 He2 Hpv Ha Hb Hc.
  destruct (child_name_Some _ _ _ H1) as (-> & Hf1 & _).
  destruct (child_name_Some _ _ _ H2) as (-> & Hf2 & _).
  assert (Path.stem (data_dir self // (s +:+ ext1))
          = Path.stem (data_dir self // (s +:+ ext2))) as Hstem
    by (by rewrite !stem_of_entry).
  assert (text_path_of self (data_dir self // (s +:+ ext1))
          = text_path_of self (data_dir self // (s +:+ ext2))) as Htext
    by (unfold text_path_of; by rewrite Hstem).
  split; [unfold audio_path_of; by rewrite Hstem|]. split; [done|].
  rewrite (for_each_cons_ret _ _ _ _ _ Hpv). simpl.
  unfold bind. rewrite Htext.
  pose proof (success_transcript _ _ _ _ _ _ _ _ Ha Hb Hc) as Hdone.
  by destruct (process_video env self _ w1) as [[[]|e] w2].
Qed.

(** An instance: [talk.mp4] and [talk.MP4] in the same directory. *)
Lemma same_stem_transcripts_collide_witness :
  text_path_of Scenario.conv "data/talk.mp4" = text_path_of Scenario.conv "data/talk.MP4"
  ∧ fs (snd (for_each ["data/talk.mp4"; "data/talk.MP4"]
               (process_video Scenario.quiet Scenario.conv) Scenario.rerun))
      !! text_path_of Scenario.conv "data/talk.mp4"
    = Some (File " Добрый день. ").
Proof.
  edestruct (same_stem_transcripts_collide Scenario.quiet Scenario.conv
               "data/talk.mp4" "data/talk.MP4" "talk" ".mp4" ".MP4" Scenario.rerun)
    as (_ & H1 & H2).
  - vm_compute. reflexivity.
  - vm_compute. reflexivity.
  - discriminate.
  - apply (bool_decide_unpack _). vm_compute. exact I.
  - apply (bool_decide_unpack _). vm_compute. exact I.
  - vm_compute. reflexivity.
  - vm_compute. reflexivity.
  - vm_compute. reflexivity.
  - vm_compute. reflexivity.
  - split; [exact H1|exact H2].
Defined.

(** ** After the interrupt *)

Lemma after_sigint_Forall (P : event → Prop) evs :
  Forall P evs → Forall P (after_sigint evs).
Proof.
  induction 1 as [|ev evs Hev Hevs IH]; [done|]. by destruct ev.
Qed.

Lemma after_sigint_app evs1 evs2 :
  Forall calm (after_sigint evs1) → Forall calm evs2 →
  Forall calm (after_sigint (evs1 ++ evs2)).
Proof.
  intros H1 H2. induction evs1 as [|ev evs1 IH]; simpl.
  - by apply after_sigint_Forall.
  - destruct ev; simpl in *; try by apply IH.
    by apply Forall_app.
Qed.

Lemma after_sigint_quiet evs1 evs2 :
  Sigint ∉ evs1 → after_sigint (evs1 ++ evs2) = after_sigint evs2.
Proof.
  induction evs1 as [|ev evs1 IH]; [done|]. intros Hnot.
  assert (Sigint ∉ evs1) as H1 by (intros H; apply Hnot; by right).
  destruct ev; simpl; try by apply IH.
  destruct Hnot. by left.
Qed.

Lemma quiet_extension w w1 evs :
  trace w1 = trace w ++ evs → ¬ interrupted w1 → Sigint ∉ evs.
Proof.
  intros Htr Hw1 Hin. apply Hw1. unfold interrupted. rewrite Htr.
  apply elem_of_app. by right.
Qed.

Lemma passes_returns_quiet {A} (m : M A) : passes_interrupt m → returns_quiet m.
Proof. intros Hm w a Hw Hr Hi. apply (Hm w Hw) in Hi. congruence. Qed.

Lemma returns_quiet_bind {A B} (m : M A) (k : A → M B) :
  returns_quiet m → (∀ a, returns_quiet (k a)) → returns_quiet (bind m k).
Proof.
  intros Hm Hk w b Hw. unfold bind. specialize (Hm w).
  destruct (m w) as [[a|e] w1]; simpl in *; [|done].
  apply Hk. by eapply Hm.
Qed.

Lemma returns_quiet_for_each {A} (xs : list A) body :
  (∀ x, returns_quiet (body x)) → returns_quiet (for_each xs body).
Proof.
  intros Hb. induction xs as [|x xs IH]; simpl.
  - apply passes_returns_quiet, passes_ret.
  - by apply returns_quiet_bind.
Qed.

Lemma returns_quiet_try_finally {A} (body : M A) final :
  returns_quiet body → returns_quiet final →
  returns_quiet (try_finally body final).
Proof.
  intros Hb Hf w a Hw. unfold try_finally. specialize (Hb w).
  destruct (body w) as [r w1]. specialize (Hf w1).
  destruct (final w1) as [[[]|e] w2]; simpl in *; [|done].
  intros ->. eapply Hf; [|done]. by eapply Hb.
Qed.

Lemma winds_down_bind {A B} (m : M A) (k : A → M B) :
  returns_quiet m → winds_down m → (∀ a, winds_down (k a)) →
  winds_down (bind m k).
Proof.
  intros Hq Hm Hk w Hw. unfold bind.
  destruct (Hm w Hw) as (evs1 & Htr1 & Hc1). specialize (Hq w).
  destruct (m w) as [[a|e] w1]; simpl in *; [|by exists evs1].
  assert (¬ interrupted w1) as Hw1 by (by eapply Hq).
  destruct (Hk a w1 Hw1) as (evs2 & Htr2 & Hc2).
  exists (evs1 ++ evs2). split; [by rewrite Htr2, Htr1, app_assoc|].
  rewrite after_sigint_quiet; [done|]. by eapply quiet_extension.
Qed.

Lemma winds_down_except_Exception {A} (body : M A) h :
  passes_interrupt body → winds_down body → (∀ cause, winds_down (h cause)) →
  winds_down (try_except body (except_Exception h)).
Proof.
  intros Hp Hb Hh w Hw. unfold try_except.
  destruct (Hb w Hw) as (evs1 & Htr1 & Hc1). specialize (Hp w Hw).
  destruct (body w) as [[a|[cause| |code]] w1]; simpl in *; try by exists evs1.
  assert (¬ interrupted w1) as Hw1 by (rewrite Hp; by intros [=]).
  destruct (Hh cause w1 Hw1) as (evs2 & Htr2 & Hc2).
  exists (evs1 ++ evs2). split; [by rewrite Htr2, Htr1, app_assoc|].
  rewrite after_sigint_quiet; [done|]. by eapply quiet_extension.
Qed.

Lemma winds_down_try_finally {A} (body : M A) final :
  winds_down body → winds_down final → keeps anywhere calm final →
  winds_down (try_finally body final).
Proof.
  intros Hb Hf Hcalm w Hw. unfold try_finally.
  destruct (Hb w Hw) as (evs1 & Htr1 & Hc1).
  destruct (body w) as [r w1]; simpl in *.
  assert (∃ evs, trace (snd (final w1)) = trace w ++ evs
                 ∧ Forall calm (after_sigint evs)) as (evs & Htr & Hc).
  { destruct (decide (interrupted w1)) as [Hi|Hw1].
    - destruct (Hcalm w1) as [_ (evs2 & Htr2 & Hc2)].
      exists (evs1 ++ evs2). split; [by rewrite Htr2, Htr1, app_assoc|].
      by apply after_sigint_app.
    - destruct (Hf w1 Hw1) as (evs2 & Htr2 & Hc2).
      exists (evs1 ++ evs2). split; [by rewrite Htr2, Htr1, app_assoc|].
      rewrite after_sigint_quiet; [done|]. by eapply quiet_extension. }
  exists evs. by destruct (final w1) as [[[]|e] w2].
Qed.

Lemma winds_down_for_each {A} (xs : list A) body :
  (∀ x, returns_quiet (body x)) → (∀ x, winds_down (body x)) →
  winds_down (for_each xs body).
Proof.
  intros Hq Hb. induction xs as [|x xs IH]; simpl.
  - intros w Hw. exists []. by rewrite app_nil_r.
  - by apply winds_down_bind.
Qed.

(** A single call or line: at most the interrupt follows it. *)
Lemma winds_down_step {A} (m : M A) ev :
  (∀ w, trace (snd (m w)) = trace w ++ [ev]
        ∨ trace (snd (m w)) = trace w ++ [ev; Sigint]) →
  ev ≠ Sigint → winds_down m.
Proof.
  intros Hm Hev w Hw. destruct (Hm w) as [H|H]; eexists; (split; [exact H|]);
    destruct ev; done.
Qed.

Section WindingDown.

Variable env : Env.

Lemma print_winds_down line : winds_down (print line).
Proof. apply (winds_down_step _ (Print line)); [by left|done]. Qed.

Lemma ret_winds_down {A} (a : A) : winds_down (ret a).
Proof. intros w Hw. exists []. by rewrite app_nil_r. Qed.

Lemma raise_winds_down {A} e : winds_down (@raise A e).
Proof. intros w Hw. exists []. by rewrite app_nil_r. Qed.

Lemma path_exists_winds_down p : winds_down (path_exists p).
Proof. intros w Hw. exists []. by rewrite app_nil_r. Qed.

Lemma load_model_winds_down source : winds_down (load_model env source).
Proof.
  apply (winds_down_step _ (LoadModel source)); [|done]. intros w.
  unfold load_model. destruct (load_model_result env w source) as [[cause|]|];
    simpl; rewrite <- ?app_assoc; auto.
Qed.

Lemma mkdir_winds_down p : winds_down (mkdir_exist_ok env p).
Proof.
  apply (winds_down_step _ (Mkdir p)); [|done]. intros w.
  unfold mkdir_exist_ok. destruct (mkdir_result env w p) as [[cause|]|];
    [| |destruct (fs w !! p) as [[content|]|]]; simpl; rewrite <- ?app_assoc; auto.
Qed.

Lemma decode_winds_down video audio : winds_down (decode env video audio).
Proof.
  apply (winds_down_step _ (Decode video audio)); [|done]. intros w.
  unfold decode.
  destruct (decode_result env w video audio) as [[bytes|] [[cause|]|]];
    simpl; rewrite <- ?app_assoc; auto.
Qed.

Lemma recognize_winds_down mdl audio : winds_down (recognize env mdl audio).
Proof.
  apply (winds_down_step _ (Transcribe mdl audio)); [|done]. intros w.
  unfold recognize. destruct (transcribe_result env w mdl audio) as [text|[cause|]];
    simpl; rewrite <- ?app_assoc; auto.
Qed.

Lemma write_text_winds_down p text : winds_down (write_text env p text).
Proof.
  apply (winds_down_step _ (OpenWrite p text)); [|done]. intros w.
  unfold write_text. destruct (write_result env w p text) as [|[part|] [cause|]];
    simpl; rewrite <- ?app_assoc; auto.
Qed.

Lemma unlink_winds_down p : winds_down (unlink env p).
Proof.
  apply (winds_down_step _ (Unlink p)); [|done]. intros w.
  unfold unlink. destruct (unlink_result env w p) as [[cause|]|];
    simpl; rewrite <- ?app_assoc; auto.
Qed.

Ltac winding :=
  repeat first
    [ apply ret_winds_down | apply raise_winds_down | apply print_winds_down
    | apply path_exists_winds_down | apply load_model_winds_down
    | apply mkdir_winds_down | apply decode_winds_down
    | apply recognize_winds_down | apply write_text_winds_down
    | apply unlink_winds_down
    | apply winds_down_bind | apply winds_down_except_Exception
    | apply passes_returns_quiet
    | apply passes_bind | apply passes_except_Exception
    | apply passes_ret | apply passes_print | apply passes_path_exists
    | by apply passes_raise
    | apply passes_load_model | apply passes_mkdir | apply passes_decode
    | apply passes_recognize | apply passes_write_text | apply passes_unlink
    | match goal with
      | |- ∀ _, _ => intro
      | |- winds_down (if ?b then _ else _) => destruct b
      | |- passes_interrupt (if ?b then _ else _) => destruct b
      end ].

Lemma init_winds_down model_name : winds_down (__init__ env model_name).
Proof. unfold __init__. winding. Qed.

Lemma attempt_winds_down self video : winds_down (attempt env self video).
Proof.
  unfold attempt, steps, extract_audio, transcribe_audio, save_text, report_failure.
  winding.
Qed.

Lemma cleanup_winds_down audio : winds_down (cleanup env audio).
Proof. unfold cleanup. winding. Qed.

Lemma cleanup_calm audio : keeps anywhere calm (cleanup env audio).
Proof. by apply cleanup_keeps. Qed.

Lemma process_video_returns_quiet self video :
  returns_quiet (process_video env self video).
Proof.
  unfold process_video.
  apply returns_quiet_bind; [apply passes_returns_quiet, passes_print|]. intros _.
  apply returns_quiet_try_finally; apply passes_returns_quiet;
    [apply attempt_passes|apply cleanup_passes].
Qed.

Lemma process_video_winds_down self video :
  winds_down (process_video env self video).
Proof.
  unfold process_video.
  apply winds_down_bind;
    [apply passes_returns_quiet, passes_print|apply print_winds_down|].
  intros _. apply winds_down_try_finally;
    [apply attempt_winds_down|apply cleanup_winds_down|apply cleanup_calm].
Qed.

Lemma process_all_videos_winds_down self :
  winds_down (process_all_videos env self).
Proof.
  intros w Hw. unfold process_all_videos.
  destruct (discover env self w) as [|video rest].
  - revert w Hw. winding.
  - revert w Hw.
    apply winds_down_bind;
      [apply passes_returns_quiet, passes_print|apply print_winds_down|].
    intros _. apply winds_down_bind; [| |intros _; apply print_winds_down].
    + apply returns_quiet_for_each. intros x. apply process_video_returns_quiet.
    + apply winds_down_for_each; intros x;
        [apply process_video_returns_quiet|apply process_video_winds_down].
Qed.

Lemma main_body_winds_down args : winds_down (main_body env args).
Proof.
  unfold main_body.
  apply winds_down_bind;
    [apply passes_returns_quiet, init_passes|apply init_winds_down|].
  intros conv. unfold dispatch.
  destruct (arg_file args) as [f|]; [|apply process_all_videos_winds_down].
  destruct (String.eqb f ""); [apply process_all_videos_winds_down|].
  apply winds_down_bind;
    [apply passes_returns_quiet, passes_path_exists|apply path_exists_winds_down|].
  intros [|]; simpl.
  - apply process_video_winds_down.
  - unfold sys_exit. winding.
Qed.

End WindingDown.

(** X12.  Once the interrupt has arrived, the run starts nothing new: in the
    trace of a run, whatever follows the arrival of the interrupt is a
    printed line, the deletion of a temporary file, or a further interrupt.
    No model is loaded, no directory created, no video decoded or recognized
    and no transcript written after it; the remaining videos of a scan are
    skipped. *)
Theorem nothing_new_after_interrupt env args w :
  ¬ interrupted w →
  ∃ evs, trace (snd (run env args w)) = trace w ++ evs
         ∧ Forall calm (after_sigint evs).
Proof.
  intros Hw. rewrite run_world. unfold main, try_except.
  destruct (main_body_winds_down env args w Hw) as (evs & Htr & Hc).
  destruct (main_body env args w) as [[[]|[cause| |code]] w1]; simpl in *.
  - by exists evs.
  - exists (evs ++ [Print ("❌ Критическая ошибка: " +:+ cause)]).
    split; [by rewrite Htr, app_assoc|]. apply after_sigint_app; [done|].
    by repeat constructor.
  - exists (evs ++ [Print (Str.nl +:+ "⚠️ Обработка прервана пользователем")]).
    split; [by rewrite Htr, app_assoc|]. apply after_sigint_app; [done|].
    by repeat constructor.
  - by exists evs.
Qed.

(** An instance: the interrupt arrives during the first of two lectures. *)
Lemma nothing_new_after_interrupt_witness :
  ∃ evs, trace (snd (run Scenario.stopped Scenario.batch Scenario.lectures))
         = trace Scenario.lectures ++ evs
         ∧ Forall calm (after_sigint evs).
Proof.
  apply (nothing_new_after_interrupt Scenario.stopped Scenario.batch Scenario.lectures).
  apply (bool_decide_unpack _). vm_compute. exact I.
Defined.

Example second_lecture_skipped_after_interrupt :
  decoded_videos (trace (snd (run Scenario.stopped Scenario.batch Scenario.lectures)))
  = ["data/talk.mp4"].
Proof. vm_compute. reflexivity. Qed.

(** ** Where a run writes *)

Lemma contains_char_append c a b :
  Str.contains_char c (a +:+ b) = Str.contains_char c a || Str.contains_char c b.
Proof.
  induction a as [|d a IH]; [done|].
  by rewrite append_cons, !contains_char_cons, IH, orb_assoc.
Qed.

Lemma after_last_slash_slash_free cur p :
  Str.contains_char "/" p = true →
  Str.contains_char "/" (Path.after_last_slash cur p) = false.
Proof.
  revert cur. induction p as [|c r IH]; intros cur; [done|].
  rewrite contains_char_cons, after_last_slash_cons, (Ascii.eqb_sym c).
  destruct (Ascii.eqb "/" c); simpl.
  - intros _. destruct (Str.contains_char "/" r) eqn:Hr; [by apply IH|].
    by rewrite after_last_slash_free.
  - apply IH.
Qed.

Lemma name_slash_free p : Str.contains_char "/" (Path.name p) = false.
Proof.
  unfold Path.name. destruct (String.eqb p "."); [done|].
  destruct (Str.contains_char "/" p) eqn:Hp.
  - by apply after_last_slash_slash_free.
  - by rewrite after_last_slash_free.
Qed.

Lemma substring_slash_free n m s :
  Str.contains_char "/" s = false →
  Str.contains_char "/" (substring n m s) = false.
Proof.
  revert n m. induction s as [|c s IH]; intros n m.
  - by destruct n, m.
  - rewrite contains_char_cons. intros [Hc Hs]%orb_false_elim.
    destruct n as [|n]; [destruct m as [|m]|]; cbn [substring];
      [done| |by apply IH].
    rewrite contains_char_cons, Hc. by apply IH.
Qed.

Lemma stem_slash_free p : Str.contains_char "/" (Path.stem p) = false.
Proof.
  unfold Path.stem. destruct (Str.rfind_dot (Path.name p)) as [i|];
    [|apply name_slash_free].
  destruct (_ && _); [|apply name_slash_free].
  apply substring_slash_free, name_slash_free.
Qed.

Lemma strip_prefix_append pre r : Str.strip_prefix pre (pre +:+ r) = Some r.
Proof.
  induction pre as [|a pre IH]; [by destruct r|].
  rewrite append_cons. simpl. by rewrite Ascii.eqb_refl.
Qed.

Lemma append_assoc a b c : (a +:+ b) +:+ c = a +:+ b +:+ c.
Proof. induction a as [|x a IH]; [done|]. by rewrite !append_cons, IH. Qed.

Lemma child_name_join dir n :
  Str.contains_char "/" n = false → n ≠ "" →
  Path.child_name dir (dir // n) = Some n.
Proof.
  intros Hfree Hne. unfold Path.child_name, Path.join.
  rewrite <- append_assoc, strip_prefix_append, Hfree.
  by destruct (String.eqb_spec n "").
Qed.

Lemma output_child out video suffix :
  Str.contains_char "/" suffix = false → suffix ≠ "" →
  is_Some (Path.child_name out (out // (Path.stem video +:+ suffix))).
Proof.
  intros Hfree Hne. rewrite child_name_join; [by eexists| |].
  - by rewrite contains_char_append, stem_slash_free, Hfree.
  - intros H. apply (f_equal String.length) in H. rewrite length_append in H.
    destruct suffix; [done|]. simpl in H. lia.
Qed.

Section OutputArea.

Variable env : Env.
Variable self : VideoToTextConverter.

Let touch : string → Prop := output_area (output_dir self).

Lemma audio_path_in_area video : touch (audio_path_of self video).
Proof. right. right. by apply output_child. Qed.

Lemma text_path_in_area video : touch (text_path_of self video).
Proof. right. right. by apply output_child. Qed.

Ltac area :=
  repeat first
    [ apply keeps_ret | apply keeps_raise | apply keeps_path_exists
    | apply keeps_print | apply keeps_bind | apply keeps_except_Exception
    | apply keeps_try_finally | apply keeps_for_each
    | apply keeps_decode | apply keeps_recognize | apply keeps_write_text
    | apply keeps_unlink
    | exact I
    | apply audio_path_in_area | apply text_path_in_area
    | match goal with
      | |- ∀ _, _ => intro
      | |- keeps _ _ (if ?b then _ else _) => destruct b
      end ].

Lemma process_video_area video :
  keeps touch anything (process_video env self video).
Proof.
  unfold process_video, attempt, steps, extract_audio, transcribe_audio, save_text,
    report_failure, cleanup.
  area.
Qed.

Lemma process_all_videos_area : keeps touch anything (process_all_videos env self).
Proof.
  intros w. unfold process_all_videos.
  destruct (discover env self w) as [|video rest].
  - revert w. area.
  - revert w. apply keeps_bind; [by apply keeps_print|]. intros _.
    apply keeps_bind; [|intros _; by apply keeps_print].
    apply keeps_for_each. intros x. apply process_video_area.
Qed.

Lemma dispatch_area args : keeps touch anything (dispatch env args self).
Proof.
  unfold dispatch.
  destruct (arg_file args) as [f|]; [|apply process_all_videos_area].
  destruct (String.eqb f ""); [apply process_all_videos_area|].
  cbv zeta. apply keeps_bind; [apply keeps_path_exists|]. intros [|]; simpl.
  - apply process_video_area.
  - unfold sys_exit. area.
Qed.

End OutputArea.

Lemma run_frame env args w :
  frame (output_area "output") anything w (snd (run env args w)).
Proof.
  rewrite run_world. unfold main. apply frame_try_except.
  2:{ intros e h. apply main_handlers_area. }
  eapply frame_trans; [by apply (frame_after_banner _ _ (arg_model args))|].
  rewrite main_body_eq.
  assert (keeps (output_area "output") anything
            (mdl <~ load_model env (model_source (arg_model args) w) ;;
             mkdir_exist_ok env "data" ;;;
             mkdir_exist_ok env "output" ;;;
             dispatch env args
               {| model := mdl; data_dir := "data"; output_dir := "output" |}))
    as Hk; [|apply Hk].
  apply keeps_bind; [by apply keeps_load_model|]. intros mdl.
  apply keeps_bind; [apply keeps_mkdir; [done|by left|done]|]. intros _.
  apply keeps_bind; [apply keeps_mkdir; [done|by right; left|done]|]. intros _.
  apply (dispatch_area env
           {| model := mdl; data_dir := "data"; output_dir := "output" |}).
Qed.

(** X1.  Whatever the arguments and whatever goes wrong, the file operations
    of a run (creating the two directories, the output of the decoder, the
    transcript, the deletion of the temporary file) stay within [data] and
    [output] themselves and the direct children of [output]: every other
    path, also one deeper inside [output], holds afterwards what it held
    before.  What the recognizer library stores of its own when it fetches a
    model is outside the file system of the model and not covered. *)
Theorem run_writes_only_under_output env args w p :
  p ≠ "data" → p ≠ "output" → Path.child_name "output" p = None →
  fs (snd (run env args w)) !! p = fs w !! p.
Proof.
  intros Hd Ho Hc. destruct (run_frame env args w) as [Hfs _].
  apply Hfs. intros [->|[->|[n Hn]]]; [done|done|congruence].
Qed.

(** An instance: an older transcript in a sub-directory of [output] is still
    there after a run over the end-to-end scenario. *)
Lemma run_writes_only_under_output_witness :
  fs (snd (run Scenario.quiet Scenario.batch
             (Scenario.disk [("data", Dir); ("output", Dir);
                             ("data/talk.mp4", File "v1");
                             ("output/2023/talk.txt", File "last year")])))
    !! "output/2023/talk.txt"
  = Some (File "last year").
Proof.
  etransitivity.
  - apply run_writes_only_under_output.
    + discriminate.
    + discriminate.
    + vm_compute. reflexivity.
  - vm_compute. reflexivity.
Defined.
